(** * GeneRefNet: similarity matrix, top-degree selection and label propagation

    A shallow embedding of [makeJaccardMat] and [clustNetwork_Adj] of
    [GRN.py].  Conventions:

    - numpy float arrays are lists (of lists) of rationals [Q]: every
      quantity the code computes is a ratio of integers or a linear
      interpolation of integers, so [Q] carries the values exactly where
      the floats round them;
    - a Python exception is a value [Raise e] of the [result] type;
    - the [while del0] loop takes fuel and answers [None] when it runs
      out; [while_del0_terminates] shows that it never does with
      [count_none y + 2] units;
    - [np.percentile] and the spectral clustering routine are library
      calls: they are the variables [percentile] and [fit_predict] of the
      [Clustering] section; [np_percentile] is numpy's interpolating
      percentile, used on the sample inputs. *)

From Stdlib Require Import QArith Qround.
From stdpp Require Import gmap strings list sorting.

#[local] Set Warnings "-clear-no-such-hyp,-level-tolerance".

Local Open Scope Z_scope.
Local Open Scope nat_scope.

(** ** Exceptions *)

Inductive exn : Set :=
  | IndexError
  | KeyError
  | ZeroDivisionError
  | ValueError.

Inductive result (A : Type) : Type :=
  | Ok (a : A)
  | Raise (e : exn).
Arguments Ok {A} a.
Arguments Raise {A} e.

Definition result_bind {A B} (f : A → result B) (m : result A) : result B :=
  match m with
  | Ok a => f a
  | Raise e => Raise e
  end.

#[global] Instance result_mbind : MBind result := @result_bind.
#[global] Instance result_mret : MRet result := @Ok.

(** [for x in l: s = body(s, x)], stopping at the first exception. *)
Fixpoint for_each {S A} (body : S → A → result S) (s : S) (l : list A)
    : result S :=
  match l with
  | [] => Ok s
  | x :: l' => s' ← body s x; for_each body s' l'
  end.

(** [a[i]] on a list or a one-dimensional array, for [i >= 0]. *)
Definition getitem {A} (a : list A) (i : nat) : result A :=
  match a !! i with
  | Some x => Ok x
  | None => Raise IndexError
  end.

(** ** Labels

    The clustering step yields integers; the relabelling loop replaces them
    with gene symbols or with the string ['none'].  A Python comparison
    between an integer and a string is [False]. *)

Inductive label : Set :=
  | Raw (c : Z)
  | Sym (s : string).

#[global] Instance label_eq_dec : EqDecision label.
Proof. solve_decision. Defined.

Definition none : label := Sym "none".

(** [y.count('none')] *)
Definition count_none (y : list label) : nat :=
  length (filter (λ l, l = none) y).

Abbreviation matrix := (list (list Q)).

#[global] Instance Q_inhabited : Inhabited Q := populate 0%Q.

(** A two-dimensional array of shape [(n, n)]. *)
Definition square (n : nat) (M : matrix) : Prop :=
  length M = n ∧ Forall (λ r, length r = n) M.

(** Node [j] carries a label other than ['none']. *)
Definition resolved (y : list label) (j : nat) : Prop :=
  ∃ l, y !! j = Some l ∧ l ≠ none.

(** ** Sorting keys

    [np.argsort(v)] returns the indices of [v] in ascending order of value.
    The order among equal values is not fixed by numpy; the merge sort below
    keeps equal values in index order (as numpy's own insertion sort does on
    short arrays).  The theorems use only [argsort_Permutation] and
    [argsort_Sorted]. *)

Definition key_le (v : list Q) (i j : nat) : Prop :=
  (v !!! i <= v !!! j)%Q.

#[global] Instance key_le_dec v i j : Decision (key_le v i j).
Proof. unfold key_le. destruct (Qlt_le_dec (v !!! j) (v !!! i)).
  - right. apply Qlt_not_le. assumption.
  - left. assumption.
Defined.

Definition argsort (v : list Q) : list nat :=
  merge_sort (key_le v) (seq 0 (length v)).

(** ** Label propagation (GRN.py, lines 166-189) *)

(** The inner [while b>=0] loop.  [rest] is [sortlabs[b:]]: reading
    [sortlabs[b]] when [b] has reached the end of the array raises
    [IndexError]; [b=-1] leaves the loop with [yil]. *)
Fixpoint scan (y : list label) (rest : list nat) (b : nat) : result label :=
  match rest with
  | [] => Raise IndexError
  | idx :: rest' =>
      ltest ← getitem y idx;
      if decide (ltest = none) then
        if decide (length y < b) then Ok none
        else scan y rest' (S b)
      else Ok ltest
  end.

(** The body of [for i in range(len(y))]. *)
Definition assign (TOM : matrix) (y : list label) (i : nat)
    : result (list label) :=
  yi ← getitem y i;
  if decide (yi = none) then
    row ← getitem TOM i;
    let sortlabs := argsort (Qopp <$> row) in
    yil ← scan y sortlabs 0;
    Ok (<[i := yil]> y)
  else Ok y.

(** One full pass over the label vector, mutating it in place. *)
Definition pass (TOM : matrix) (y : list label) : result (list label) :=
  for_each (assign TOM) y (seq 0 (length y)).

(** [while del0: ...; del0=n0-y.count('none'); n0=y.count('none')] *)
Fixpoint while_del0 (fuel : nat) (TOM : matrix) (y : list label)
    (n0 : nat) (del0 : Z) : option (result (list label)) :=
  match fuel with
  | O => None
  | S fuel' =>
      if decide (del0 = 0%Z) then Some (Ok y)
      else
        match pass TOM y with
        | Raise e => Some (Raise e)
        | Ok y' =>
            while_del0 fuel' TOM y' (count_none y')
              (Z.of_nat n0 - Z.of_nat (count_none y'))%Z
        end
  end.

(** Lines 166-189: the label-propagation part of [clustNetwork_Adj]. *)
Definition propagate (fuel : nat) (TOM : matrix) (y : list label)
    : option (result (list label)) :=
  while_del0 fuel TOM y (count_none y) (Z.of_nat (count_none y)).

(** ** The association table and the similarity matrix (lines 90-108) *)

(** A row of the data frame; the [FBid] column is never read here. *)
Record assoc : Set := Assoc { symb : string; pubid : Z }.

Abbreviation dataframe := (list assoc).

(** [Series.unique()]: the distinct values, in order of first appearance. *)
Fixpoint unique (l : list string) : list string :=
  match l with
  | [] => []
  | x :: l' => x :: filter (λ z, z ≠ x) (unique l')
  end.

(** [df.groupby('symb')]: one group per gene, holding the rows of that gene.
    pandas yields the groups in sorted key order; they are listed here in
    order of first appearance, which the dictionary built from them does not
    record. *)
Definition groupby_symb (df : dataframe) : list (string * dataframe) :=
  (λ g, (g, filter (λ r, symb r = g) df)) <$> unique (symb <$> df).

(** Lines 97-100: [genedict[gene]=set(pub.pubid.tolist())]. *)
Definition build_genedict (df : dataframe) : gmap string (gset Z) :=
  foldl (λ d gp, <[gp.1 := list_to_set (pubid <$> gp.2)]> d) ∅
        (groupby_symb df).

(** [d[k]] on a dictionary. *)
Definition dict_get {V} (d : gmap string V) (k : string) : result V :=
  match d !! k with
  | Some v => Ok v
  | None => Raise KeyError
  end.

(** Lines 104-105: [len(a & b) / (1.0*len(a | b))], a Python float
    division. *)
Definition jacind (a b : gset Z) : result Q :=
  let u := size (a ∪ b) in
  if decide (u = 0) then Raise ZeroDivisionError
  else Ok (inject_Z (Z.of_nat (size (a ∩ b)))
           / (1 * inject_Z (Z.of_nat u)))%Q.

(** [np.zeros((n,m))] *)
Definition zeros (n m : nat) : matrix := replicate n (replicate m 0%Q).

(** [A[i,j]=v] for [i, j >= 0]. *)
Definition setitem2 (A : matrix) (i j : nat) (v : Q) : result matrix :=
  row ← getitem A i;
  if decide (j < length row) then Ok (<[i := <[j := v]> row]> A)
  else Raise IndexError.

(** [A[i,j]] as an optional value, for statements. *)
Definition entry (A : matrix) (i j : nat) : option Q :=
  row ← A !! i; row !! j.

(** The body of the inner loop, lines 104-107. *)
Definition jaccard_step (ugenes : list string) (genedict : gmap string (gset Z))
    (i : nat) (A : matrix) (j : nat) : result matrix :=
  gi ← getitem ugenes i;
  si ← dict_get genedict gi;
  gj ← getitem ugenes j;
  sj ← dict_get genedict gj;
  jac ← jacind si sj;
  A1 ← setitem2 A i j jac;
  setitem2 A1 j i jac.

Definition makeJaccardMat (df : dataframe) : result matrix :=
  let ugenes := unique (symb <$> df) in
  let genedict := build_genedict df in
  let n := length ugenes in
  for_each (λ A i, for_each (jaccard_step ugenes genedict i) A (seq 0 i))
           (zeros n n) (seq 0 n).

(** *** The specification's reading of the similarity matrix *)

(** The set of publication ids in which gene [g] appears. *)
Definition pubs_of (df : dataframe) (g : string) : gset Z :=
  list_to_set (pubid <$> filter (λ r, symb r = g) df).

(** Jaccard index, with two empty sets at similarity 0. *)
Definition Jaccard (a b : gset Z) : Q :=
  if decide (size (a ∪ b) = 0) then 0%Q
  else (Z.of_nat (size (a ∩ b)) # Pos.of_nat (size (a ∪ b)))%Q.

(** ** Top-degree selection and cluster naming (lines 140-163) *)

#[global] Instance Qlt_decision (x y : Q) : Decision (x < y)%Q.
Proof. destruct (Qlt_le_dec x y) as [H|H].
  - left. exact H.
  - right. apply Qle_not_lt. exact H.
Defined.

(** Number of columns of a two-dimensional array. *)
Definition ncols (A : matrix) : nat :=
  match A with
  | [] => 0
  | r :: _ => length r
  end.

Definition column (A : matrix) (j : nat) : list Q := (λ r, r !!! j) <$> A.

(** Line 140: [N=(A>0).sum(axis=0)], the number of positive entries of each
    column. *)
Definition degrees (A : matrix) : list Z :=
  (λ j, Z.of_nat (length (filter (λ x, (0 < x)%Q) (column A j))))
    <$> seq 0 (ncols A).

(** Line 142: [(N>cutoff) * (N<hi)], a boolean array. *)
Definition select (N : list Z) (cutoff hi : Q) : list bool :=
  (λ d, bool_decide (cutoff < inject_Z d)%Q && bool_decide (inject_Z d < hi)%Q)
    <$> N.

Definition indicator (b : bool) : Q := if b then 1%Q else 0%Q.

(** Line 144: [A*1.0*topnodes.reshape(n,1)*1.0*topnodes.reshape(1,n)], for
    a square [A] with as many rows as [topnodes] has entries. *)
Definition mask (A : matrix) (topnodes : list bool) : matrix :=
  imap (λ i r,
    imap (λ j a, (a * 1 * indicator (topnodes !!! i)
                    * 1 * indicator (topnodes !!! j))%Q) r) A.

(** [np.argmax]: the first index of the maximum; [ValueError] on an empty
    array. *)
Fixpoint argmax_from (best : nat) (bv : Z) (i : nat) (a : list Z) : nat :=
  match a with
  | [] => best
  | x :: a' =>
      if decide (bv < x)%Z then argmax_from i x (S i) a'
      else argmax_from best bv (S i) a'
  end.

Definition argmax (a : list Z) : result nat :=
  match a with
  | [] => Raise ValueError
  | x :: a' => Ok (argmax_from 0 x 1 a')
  end.

(** [N*(yarr==i)] on arrays of one length. *)
Definition masked_degrees (N yarr : list Z) (i : Z) : list Z :=
  zip_with (λ d c, (d * (if decide (c = i) then 1 else 0))%Z) N yarr.

(** The loops of lines 156-158 and 161-163:
    [for j in range(len(y)): if i==y[j]: y[j]=new]. *)
Definition rename (i : Z) (new : label) (y : list label) : list label :=
  (λ l, if decide (l = Raw i) then new else l) <$> y.

(** The body of [for i in range(k)], lines 153-163.  [yl] is only printed;
    building it evaluates [names[topind]]. *)
Definition name_cluster (N : list Z) (topnodes : list bool)
    (names : list string) (yarr : list Z) (y : list label) (i : nat)
    : result (list label) :=
  topind ← argmax (masked_degrees N yarr (Z.of_nat i));
  t ← getitem topnodes topind;
  if (t : bool) then
    nm ← getitem names topind;
    Ok (rename (Z.of_nat i) (Sym nm) y)
  else Ok (rename (Z.of_nat i) none y).

(** numpy's percentile with linear interpolation between the two nearest
    ranks, [q] in [[0,100]].  On an empty array the value is immaterial: no
    degree is compared with it. *)
Definition np_percentile (a : list Z) (q : Q) : result Q :=
  if decide (q < 0)%Q then Raise ValueError
  else if decide (100 < q)%Q then Raise ValueError
  else
    let s := merge_sort Z.le a in
    let index := (q / 100 * inject_Z (Z.of_nat (length a) - 1))%Q in
    let i := Qfloor index in
    let lo := inject_Z (s !!! Z.to_nat i) in
    let hi := inject_Z (s !!! Z.to_nat (i + 1)) in
    Ok (if decide (inject_Z i < index)%Q
        then (inject_Z (i + 1) - index) * lo + (index - inject_Z i) * hi
        else lo)%Q.

Section Clustering.
(** The two library routines whose results the code only compares and
    indexes: [np.percentile] and [SpectralClustering(n_clusters=k,
    affinity='precomputed').fit_predict]. *)
Variable percentile : list Z → Q → result Q.
Variable fit_predict : nat → matrix → result (list Z).

(** Lines 140-163: the label vector handed to the propagation loop. *)
Definition cluster_labels (A : matrix) (names : list string) (thr : Q)
    (k : nat) : result (list label) :=
  let N := degrees A in
  cutoff ← percentile N (100 - thr)%Q;
  hi ← percentile N (999 # 10)%Q;
  let topnodes := select N cutoff hi in
  let A2 := mask A topnodes in
  yarr ← fit_predict k A2;
  for_each (name_cluster N topnodes names yarr) (Raw <$> yarr) (seq 0 k).

Definition clustNetwork_Adj (fuel : nat) (A TOM : matrix)
    (names : list string) (thr : Q) (k : nat)
    : option (result (list label)) :=
  match cluster_labels A names thr k with
  | Raise e => Some (Raise e)
  | Ok y => propagate fuel TOM y
  end.
End Clustering.

(** ** Cleaning the association table (GRN.py, lines 52-60)

    The frame read from the database is the argument [loaded]; its index
    labels are the row numbers, so that dropping the labels of a
    publication drops the rows of that publication. *)

(** [df.groupby('pubid')]: one group per publication, in ascending order of
    the publication id. *)
Definition groupby_pubid (df : dataframe) : list (Z * dataframe) :=
  (λ p, (p, filter (λ r, pubid r = p) df))
    <$> merge_sort Z.le (remove_dups (pubid <$> df)).

(** Lines 52-57: the publications with more than [maxcite] rows. *)
Definition todelete (maxcite : Z) (df : dataframe) : list Z :=
  (filter (λ pg, (maxcite < Z.of_nat (length pg.2))%Z) (groupby_pubid df)).*1.

(** Line 59: [df.drop(df.index[df.pubid==i])]. *)
Definition drop_pub (df : dataframe) (i : Z) : dataframe :=
  filter (λ r, pubid r ≠ i) df.

Definition getGeneRefs (loaded : dataframe) (maxcite : Z) : dataframe :=
  foldl drop_pub loaded (todelete maxcite loaded).

(** The number of rows of publication [p]. *)
Definition pub_rows (df : dataframe) (p : Z) : nat :=
  length (filter (λ r, pubid r = p) df).

(** ** The node-edge dictionary (GRN.py, lines 63-87) *)

(** [l.index(x)] *)
Fixpoint list_index (x : string) (l : list string) : result nat :=
  match l with
  | [] => Raise ValueError
  | a :: l' =>
      if decide (a = x) then Ok 0 else n ← list_index x l'; Ok (S n)
  end.

(** [l.pop(i)] for [i >= 0], as the list that is left. *)
Definition list_pop {A} (l : list A) (i : nat) : result (list A) :=
  if decide (i < length l) then Ok (delete i l) else Raise IndexError.

(** Lines 74-76: [toadd=gl[:]; toadd.pop(gl.index(i));
    genedict[i].append(toadd)]. *)
Definition add_neighbours (gl : list string)
    (genedict : gmap string (list (list string))) (i : string)
    : result (gmap string (list (list string))) :=
  idx ← list_index i gl;
  toadd ← list_pop gl idx;
  cur ← dict_get genedict i;
  Ok (<[i := cur ++ [toadd]]> genedict).

(** Lines 66-76: for every gene, the lists of the genes cited with it, one
    list per row of the gene. *)
Definition neighbour_lists (df : dataframe)
    : result (gmap string (list (list string))) :=
  let genedict := foldl (λ d g, <[g := []]> d) ∅ (unique (symb <$> df)) in
  for_each (λ d pg, let gl := symb <$> pg.2 in
                    for_each (add_neighbours gl) d gl)
           genedict (groupby_pubid df).

(** Lines 81-84: the lists are flattened and each gene of them is mapped
    to [{'weight': gl.count(i)}].  [np.unique] yields the distinct genes
    sorted; the dictionary built from them does not record the order. *)
Definition tally (gl : list (list string)) : gmap string (gmap string nat) :=
  let flat := concat gl in
  foldl (λ m i, <[i := {["weight" := length (filter (λ x, x = i) flat)]}]> m)
        ∅ (remove_dups flat).

(** Lines 79-86 replace the value of every key. *)
Definition getnedict (df : dataframe)
    : result (gmap string (gmap string (gmap string nat))) :=
  match neighbour_lists df with
  | Ok genedict => Ok (tally <$> genedict)
  | Raise e => Raise e
  end.

#[global] Instance assoc_eq_dec : EqDecision assoc.
Proof. solve_decision. Defined.

(** The number of times [g] stands in [gl]. *)
Definition occurrences (g : string) (gl : list string) : nat :=
  length (filter (λ x, x = g) gl).

(** The number of pairs of a row of [g] and a row of [h] in one
    publication, over all publications. *)
Definition cocitations (df : dataframe) (g h : string) : nat :=
  sum_list ((λ pg, occurrences g (symb <$> pg.2) * occurrences h (symb <$> pg.2))
              <$> groupby_pubid df).

(** The number of ordered pairs of two different rows of [g] in one
    publication, over all publications. *)
Definition self_citations (df : dataframe) (g : string) : nat :=
  sum_list ((λ pg, occurrences g (symb <$> pg.2)
                   * (occurrences g (symb <$> pg.2) - 1))
              <$> groupby_pubid df).

(** The value stored for an edge of weight [w]; no edge is stored for 0. *)
Definition edge (w : nat) : option (gmap string nat) :=
  if decide (w = 0) then None else Some {["weight" := w]}.

(** [gl] without the first occurrence of [i]. *)
Definition others (i : string) (gl : list string) : list string :=
  match list_index i gl with
  | Ok idx => delete idx gl
  | Raise _ => gl
  end.

(** ** Labelling the graph (GRN.py, lines 116-122 and 192-198)

    Of a networkx graph the two functions read [G.nodes()], the list of the
    nodes, and [G.node], the dictionary that maps a node to its dictionary of
    attributes; the edges are not touched.  An attribute value is a gene
    symbol or a cluster label. *)

Record graph : Type := Graph {
  nodes : list nat;
  node : gmap nat (gmap string label)
}.

(** [G.node[n]] *)
Definition node_get (G : graph) (n : nat) : result (gmap string label) :=
  match node G !! n with
  | Some attrs => Ok attrs
  | None => Raise KeyError
  end.

(** [G.node[n][key]=v] *)
Definition set_attr (G : graph) (n : nat) (key : string) (v : label)
    : result graph :=
  attrs ← node_get G n;
  Ok (Graph (nodes G) (<[n := <[key := v]> attrs]> (node G))).

(** Lines 196-197: [G.node[n][labeltitle]=y[c]; c+=1]; the right-hand side
    is evaluated first. *)
Definition label_step (y : list label) (labeltitle : string)
    (st : graph * nat) (n : nat) : result (graph * nat) :=
  yc ← getitem y st.2;
  G ← set_attr st.1 n labeltitle yc;
  Ok (G, S st.2).

Definition addGraphLabels (G : graph) (y : list label) (labeltitle : string)
    : result graph :=
  st ← for_each (label_step y labeltitle) (G, 0) (nodes G);
  Ok st.1.

(** Line 121: [G.node[n]['label']=l[n]]. *)
Definition gene_step (l : list string) (G : graph) (n : nat) : result graph :=
  nm ← getitem l n;
  set_attr G n "label" (Sym nm).

Section Network.
(** [nx.from_numpy_matrix], a library call. *)
Variable from_numpy_matrix : matrix → result graph.

Definition makeNetwork_fromAdj (df : dataframe) (Adj : matrix) : result graph :=
  let l := unique (symb <$> df) in
  G ← from_numpy_matrix Adj;
  for_each (gene_step l) G (nodes G).
End Network.

(** A graph whose nodes are distinct and have each a dictionary of
    attributes, as every networkx graph. *)
Definition graph_wf (G : graph) : Prop :=
  NoDup (nodes G) ∧ ∀ n, n ∈ nodes G → is_Some (node G !! n).

(** ** Loading the local database (buildGRNdb.py, lines 129-230)

    [putFBgns], [putFBrefs] and [putFBgenerefs] differ in the table, its
    columns and the default block size only.  A table is the list of the
    rows inserted into it, in order; its auto-increment key is left out. *)

(** A cell of a data frame; [pd.isnull] holds of [Null]. *)
Inductive frame_cell : Set :=
  | Null
  | Value (v : string).

(** [None if pd.isnull(v) else v]: SQL [NULL] is [None]. *)
Definition sql_param (v : frame_cell) : option string :=
  match v with
  | Null => None
  | Value s => Some s
  end.

Abbreviation sql_row := (list (option string)).
Abbreviation database := (gmap string (list sql_row)).

(** [vals= [ tuple([ None if pd.isnull(v) else v for v in rw]) for rw in
    df.values ]] *)
Definition to_vals (values : list (list frame_cell)) : list sql_row :=
  (λ rw : list frame_cell, sql_param <$> rw) <$> values.

(** A slice bound of Python on a list of length [len]. *)
Definition slice_bound (len : nat) (i : Z) : nat :=
  if decide (i < 0)%Z then Z.to_nat (Z.max (i + Z.of_nat len) 0)
  else Nat.min (Z.to_nat i) len.

(** [l[a:b]] and [l[a:]] *)
Definition slice {A} (l : list A) (a b : Z) : list A :=
  take (slice_bound (length l) b - slice_bound (length l) a)
       (drop (slice_bound (length l) a) l).

Definition slice_from {A} (l : list A) (a : Z) : list A :=
  drop (slice_bound (length l) a) l.

(** [int(np.ceil(nadds/blocsz))], [nadds] the float [len(vals)*1.0]. *)
Definition nblocs (nadds : nat) (blocsz : Z) : result Z :=
  if decide (blocsz = 0%Z) then Raise ZeroDivisionError
  else Ok (Qceiling (inject_Z (Z.of_nat nadds) / inject_Z blocsz)).

(** The body of [for i in range(nblocs)]: the state holds the lists passed
    to [executemany] so far, and [c]. *)
Definition put_step (vals : list sql_row) (blocsz : Z)
    (st : list (list sql_row) * Z) (i : nat) : list (list sql_row) * Z :=
  if decide (Z.of_nat (length vals) < st.2 + blocsz)%Z
  then (st.1 ++ [slice_from vals st.2], (st.2 + blocsz)%Z)
  else (st.1 ++ [slice vals st.2 (st.2 + blocsz)], (st.2 + blocsz)%Z).

(** The calls of [executemany], in order. *)
Definition put_blocks (vals : list sql_row) (blocsz : Z)
    : result (list (list sql_row)) :=
  nb ← nblocs (length vals) blocsz;
  Ok (foldl (put_step vals blocsz) ([], 0%Z) (seq 0 (Z.to_nat nb))).1.

(** The table is dropped, created again and filled block by block;
    [nblocs] is computed before the table is dropped. *)
Definition put_table (table : string) (values : list (list frame_cell))
    (blocsz : Z) (db : database) : result database :=
  blocks ← put_blocks (to_vals values) blocsz;
  Ok (<[table := concat blocks]> db).

Definition putFBrefs := put_table "pub".
Definition putFBgenerefs := put_table "generefs".

(** The block that starts at row [j * b]. *)
Definition block {A} (l : list A) (b j : nat) : list A :=
  take b (drop (j * b) l).

(** ** Predicates used in the proofs *)

(** What a pass may do to the label vector: it keeps the length and every
    resolved entry, and it introduces no label that was not there. *)
Definition extends (y y' : list label) : Prop :=
  length y' = length y ∧
  (∀ j l, y !! j = Some l → l ≠ none → y' !! j = Some l) ∧
  (∀ l, l ∈ y' → l ∈ y) ∧
  count_none y' ≤ count_none y.

(** The value the double loop of [makeJaccardMat] computes for the pair of
    genes at positions [i] and [j]. *)
Definition pair_value (df : dataframe) (i j : nat) : Q :=
  let ugenes := unique (symb <$> df) in
  let a := pubs_of df (ugenes !!! i) in
  let b := pubs_of df (ugenes !!! j) in
  (inject_Z (Z.of_nat (size (a ∩ b)))
   / (1 * inject_Z (Z.of_nat (size (a ∪ b)))))%Q.

(** Entry [(a, b)] once the outer loop is at row [i] and the inner loop at
    column [m]: pairs below row [i], and those of row [i] below column [m],
    are written on both sides of the diagonal. *)
Definition cell (df : dataframe) (i m a b : nat) : Q :=
  if decide (a ≠ b ∧ (a `max` b < i ∨ (a `max` b = i ∧ a `min` b < m)))
  then pair_value df (a `max` b) (a `min` b)
  else 0%Q.

Definition filled (df : dataframe) (n i m : nat) (A : matrix) : Prop :=
  square n A ∧
  ∀ a b, a < n → b < n → entry A a b = Some (cell df i m a b).

(** A label of the finished vector: ['none'] or a gene symbol of [names]. *)
Definition named (names : list string) (l : label) : Prop :=
  l = none ∨ ∃ s, s ∈ names ∧ l = Sym s.

(** A label while the clusters [0 .. m-1] have been named: a finished
    label, or the raw id of a cluster still to be named. *)
Definition pending (names : list string) (m k : nat) (l : label) : Prop :=
  named names l ∨ ∃ c, l = Raw c ∧ (Z.of_nat m ≤ c < Z.of_nat k)%Z.

#[global] Instance Qeq_decision (x y : Q) : Decision (x == y)%Q := Qeq_dec x y.

(** ** Sample inputs *)

(** The table of the specification's scenario. *)
Definition df_scenario : dataframe :=
  [Assoc "g1" 1; Assoc "g2" 1; Assoc "g1" 2; Assoc "g3" 2].

(** Ten genes: gene 1 shares publications with genes 2, 3 and 4, gene 0
    with genes 5 and 6, gene 7 with gene 8, and gene 9 with none. *)
Definition sample_edges : list (nat * nat) :=
  [(1, 2); (1, 3); (1, 4); (0, 5); (0, 6); (7, 8)].

Definition sample_adj : matrix :=
  (λ i, (λ j, if decide ((i, j) ∈ sample_edges ∨ (j, i) ∈ sample_edges)
              then (1 # 2)%Q else 0%Q) <$> seq 0 10) <$> seq 0 10.

Definition sample_names : list string :=
  ["g0"; "g1"; "g2"; "g3"; "g4"; "g5"; "g6"; "g7"; "g8"; "g9"].

(** A clustering that puts gene 0 with its neighbours, gene 1 with its
    neighbours, and the isolated gene 9 alone. *)
Definition sample_fit (k : nat) (M : matrix) : result (list Z) :=
  Ok [0; 1; 1; 1; 1; 0; 0; 0; 0; 2]%Z.

(** A clustering that isolates the second node and keeps the others
    together; it honours the contract of [fit_predict] on every input. *)
Definition split_fit (k : nat) (M : matrix) : result (list Z) :=
  if decide (k < 2) then Raise ValueError
  else Ok ((λ i, if decide (i = 1) then 1%Z else 0%Z) <$> seq 0 (length M)).

(** A graph of two nodes, listed as 1, 0. *)
Definition sample_graph : graph :=
  Graph [1; 0] {[ 0 := {[ "label" := Sym "g0" ]}; 1 := {[ "label" := Sym "g1" ]} ]}.

(** A stand-in for [nx.from_numpy_matrix] on the sample inputs: the nodes
    [0 .. n-1], each with an empty dictionary of attributes. *)
Definition sample_from_numpy_matrix (Adj : matrix) : result graph :=
  Ok (Graph (seq 0 (length Adj))
            (list_to_map ((λ n, (n, ∅)) <$> seq 0 (length Adj)))).

(** Five rows of two columns, the last with a missing symbol. *)
Definition sample_values : list (list frame_cell) :=
  [[Value "FBgn1"; Value "a"]; [Value "FBgn2"; Value "b"];
   [Value "FBgn3"; Value "c"]; [Value "FBgn4"; Value "d"];
   [Value "FBgn5"; Null]].

Definition tom1 : matrix := [[0%Q]].
Definition tom2 : matrix := [[0%Q; 0%Q]; [0%Q; 0%Q]].
Definition tom3 : matrix :=
  [[1%Q; 1 # 3; 1 # 2]; [1 # 3; 1%Q; 0%Q]; [1 # 2; 0%Q; 1%Q]].

(** * Properties *)

(** ** The error monad, indexing and the loop combinator *)

Lemma getitem_Some {A} (a : list A) i x : a !! i = Some x → getitem a i = Ok x.
Proof. unfold getitem. intros ->. reflexivity. Qed.

Lemma getitem_None {A} (a : list A) i :
  a !! i = None → getitem a i = Raise IndexError.
Proof. unfold getitem. intros ->. reflexivity. Qed.

Lemma getitem_Ok_inv {A} (a : list A) i x : getitem a i = Ok x → a !! i = Some x.
Proof. unfold getitem. destruct (a !! i); congruence. Qed.

Lemma for_each_snoc {S A} (body : S → A → result S) s l x :
  for_each body s (l ++ [x]) = (s' ← for_each body s l; body s' x).
Proof.
  revert s. induction l as [|a l IH]; intros s; simpl.
  - destruct (body s x); reflexivity.
  - destruct (body s a) as [s1|e]; simpl; [apply IH | reflexivity].
Qed.

(** An invariant kept by the body is kept by the loop. *)
Lemma for_each_invariant {S A} (P : S → Prop) (body : S → A → result S) l :
  (∀ s x s', x ∈ l → P s → body s x = Ok s' → P s') →
  ∀ s s', P s → for_each body s l = Ok s' → P s'.
Proof.
  induction l as [|a l IH]; intros Hbody s s' Hs; simpl.
  - intros [= <-]. exact Hs.
  - destruct (body s a) as [s1|e] eqn:E; simpl; [|discriminate].
    apply IH.
    + intros ? x ? Hx. apply Hbody. by right.
    + eapply Hbody; [by left | exact Hs | exact E].
Qed.

(** ** Sorting keys *)

#[global] Instance key_le_total v : Total (key_le v).
Proof.
  intros i j. unfold key_le.
  destruct (Qlt_le_dec (v !!! j) (v !!! i)); [right; by apply Qlt_le_weak | by left].
Qed.

#[global] Instance key_le_trans v : Transitive (key_le v).
Proof. intros i j k. unfold key_le. apply Qle_trans. Qed.

Lemma argsort_Permutation v : argsort v ≡ₚ seq 0 (length v).
Proof. apply merge_sort_Permutation. Qed.

Lemma argsort_Sorted v : StronglySorted (key_le v) (argsort v).
Proof. apply StronglySorted_merge_sort; apply _. Qed.

Lemma argsort_length v : length (argsort v) = length v.
Proof. by rewrite argsort_Permutation, length_seq. Qed.

Lemma argsort_elem_of v i : i ∈ argsort v ↔ i < length v.
Proof. rewrite argsort_Permutation, elem_of_seq. lia. Qed.

(** ** The neighbour scan *)

Lemma scan_found y pre j post l b :
  Forall (λ k, y !! k = Some none) pre →
  y !! j = Some l → l ≠ none →
  b + length pre ≤ length y →
  scan y (pre ++ j :: post) b = Ok l.
Proof.
  intros Hpre Hj Hl. revert b.
  induction Hpre as [|k pre Hk _ IH]; intros b Hb; simpl.
  - rewrite (getitem_Some _ _ _ Hj). simpl. by rewrite decide_False.
  - rewrite (getitem_Some _ _ _ Hk). simpl in *.
    rewrite decide_False by lia.
    apply IH. lia.
Qed.

Lemma scan_exhausted y rest b :
  Forall (λ k, y !! k = Some none) rest →
  b + length rest ≤ S (length y) →
  scan y rest b = Raise IndexError.
Proof.
  intros Hrest. revert b.
  induction Hrest as [|k rest Hk _ IH]; intros b Hb; simpl; [done|].
  rewrite (getitem_Some _ _ _ Hk). simpl in *.
  rewrite decide_False by lia.
  apply IH. lia.
Qed.

(** [scan y (drop b sortlabs) b] is the loop at index [b]: it reads
    [sortlabs[b]], and the label of that node. *)
Lemma scan_at_index y (sortlabs : list nat) b :
  scan y (drop b sortlabs) b =
  match sortlabs !! b with
  | None => Raise IndexError
  | Some idx =>
      ltest ← getitem y idx;
      if decide (ltest = none) then
        if decide (length y < b) then Ok none
        else scan y (drop (S b) sortlabs) (S b)
      else Ok ltest
  end.
Proof.
  destruct (sortlabs !! b) as [idx|] eqn:E.
  - by rewrite (drop_S _ _ _ E).
  - apply lookup_ge_None in E. by rewrite drop_ge.
Qed.

(** The ranking splits at its first resolved node. *)
Lemma first_resolved y (rest : list nat) :
  Forall (λ k, k < length y) rest →
  (∃ j l, j ∈ rest ∧ y !! j = Some l ∧ l ≠ none) →
  ∃ pre j post l, rest = pre ++ j :: post ∧
    Forall (λ k, y !! k = Some none) pre ∧ y !! j = Some l ∧ l ≠ none.
Proof.
  induction 1 as [|k rest Hk _ IH]; intros (j & l & Hin & Hj & Hl).
  - by apply elem_of_nil in Hin.
  - apply lookup_lt_is_Some in Hk as [lk Hlk].
    destruct (decide (lk = none)) as [->|Hne].
    + destruct IH as (pre & j' & post & l' & -> & Hpre & Hj' & Hl').
      { apply elem_of_cons in Hin as [->|Hin]; [congruence|]. eauto. }
      exists (k :: pre), j', post, l'. split_and!; auto.
    + exists [], k, rest, lk. split_and!; auto.
Qed.

Lemma scan_elem_of y rest b l : scan y rest b = Ok l → l ∈ y.
Proof.
  revert b. induction rest as [|k rest IH]; intros b; simpl; [done|].
  destruct (getitem y k) as [lk|e] eqn:E; simpl; [|done].
  apply getitem_Ok_inv, list_elem_of_lookup_2 in E.
  repeat case_decide; subst; eauto; by intros [= <-].
Qed.

Lemma Qopp_le_inv (p q : Q) : (- p <= - q)%Q → (q <= p)%Q.
Proof. destruct p, q. unfold Qle. simpl. lia. Qed.

Lemma lookup_total_opp (row : list Q) k :
  k < length row → (Qopp <$> row) !!! k = (- (row !!! k))%Q.
Proof. intros Hk. by apply (list_lookup_total_fmap Qopp row k). Qed.

(** ** One step of a pass *)

Lemma assign_resolved TOM y i l :
  y !! i = Some l → l ≠ none → assign TOM y i = Ok y.
Proof.
  intros Hi Hl. unfold assign. rewrite (getitem_Some _ _ _ Hi). simpl.
  by rewrite decide_False.
Qed.

Lemma assign_none TOM y i row :
  y !! i = Some none → TOM !! i = Some row → length row = length y →
  (∃ j, resolved y j) →
  ∃ b j l,
    argsort (Qopp <$> row) !! b = Some j ∧
    (∀ b' k, b' < b → argsort (Qopp <$> row) !! b' = Some k →
             y !! k = Some none) ∧
    y !! j = Some l ∧ l ≠ none ∧
    (∀ k, resolved y k → (row !!! k <= row !!! j)%Q) ∧
    assign TOM y i = Ok (<[i := l]> y).
Proof.
  intros Hi Hrow Hlen (j0 & l0 & Hj0 & Hl0).
  set (sortlabs := argsort (Qopp <$> row)).
  assert (Hin : ∀ k, k ∈ sortlabs ↔ k < length y).
  { intros k. unfold sortlabs. rewrite argsort_elem_of, length_fmap. lia. }
  destruct (first_resolved y sortlabs) as (pre & j & post & l & Hs & Hpre & Hj & Hl).
  { apply Forall_forall. intros k. apply Hin. }
  { exists j0, l0. split_and!; auto. apply Hin. by eapply lookup_lt_Some. }
  assert (Hlenpre : length pre < length y).
  { assert (length sortlabs = length y) as <-
      by (unfold sortlabs; by rewrite argsort_length, length_fmap).
    rewrite Hs, length_app. simpl. lia. }
  exists (length pre), j, l. split_and!; auto.
  - rewrite Hs. by rewrite list_lookup_middle.
  - intros b' k Hb'. rewrite Hs, lookup_app_l by done. intros Hk.
    eapply Forall_lookup_1 in Hpre; eauto.
  - intros k (lk & Hk & Hlk).
    assert (Hks : k ∈ sortlabs) by (apply Hin; by eapply lookup_lt_Some).
    pose proof (argsort_Sorted (Qopp <$> row)) as Hsorted.
    fold sortlabs in Hsorted. rewrite Hs in Hsorted, Hks.
    apply StronglySorted_app in Hsorted as (_ & _ & Hsorted).
    apply StronglySorted_cons in Hsorted as [Hpost _].
    apply elem_of_app in Hks as [Hks|Hks].
    { eapply Forall_forall in Hpre; eauto. congruence. }
    apply elem_of_cons in Hks as [->|Hks]; [apply Qle_refl|].
    eapply Forall_forall in Hpost; eauto. unfold key_le in Hpost.
    rewrite !lookup_total_opp in Hpost
      by (rewrite Hlen; by eapply lookup_lt_Some).
    by apply Qopp_le_inv.
  - unfold assign. rewrite (getitem_Some _ _ _ Hi). simpl.
    rewrite (getitem_Some _ _ _ Hrow). simpl. fold sortlabs.
    rewrite Hs. rewrite (scan_found y pre j post l 0); auto. lia.
Qed.

Lemma count_none_insert y i l :
  y !! i = Some none → count_none (<[i := l]> y) ≤ count_none y.
Proof.
  unfold count_none. revert i. induction y as [|a y IH]; intros [|i]; simpl; try done.
  - intros [= ->]. rewrite !filter_cons.
    repeat case_decide; simpl; try lia; done.
  - intros Hi. rewrite !filter_cons. specialize (IH _ Hi).
    case_decide; simpl; lia.
Qed.

Lemma count_none_zero y : count_none y = 0 ↔ none ∉ y.
Proof.
  unfold count_none. induction y as [|a y IH]; simpl.
  - split; [intros _; apply not_elem_of_nil | done].
  - rewrite filter_cons, not_elem_of_cons. case_decide; simpl.
    + split; [lia | intros [? _]; congruence].
    + rewrite IH. split; [auto | by intros [_ ?]].
Qed.

Lemma extends_refl y : extends y y.
Proof. unfold extends. auto. Qed.

Lemma extends_trans y1 y2 y3 : extends y1 y2 → extends y2 y3 → extends y1 y3.
Proof.
  intros (L1 & K1 & E1 & C1) (L2 & K2 & E2 & C2). unfold extends.
  split_and!; [congruence | eauto | eauto | lia].
Qed.

Lemma assign_extends TOM y i y' : assign TOM y i = Ok y' → extends y y'.
Proof.
  unfold assign. destruct (getitem y i) as [yi|] eqn:Ei; simpl; [|done].
  apply getitem_Ok_inv in Ei.
  case_decide as Hyi; [subst yi | intros [= <-]; apply extends_refl].
  destruct (getitem TOM i) as [row|]; simpl; [|done].
  destruct (scan y _ 0) as [l|] eqn:Es; simpl; [|done].
  intros [= <-]. apply scan_elem_of in Es.
  split_and!.
  - apply length_insert.
  - intros j lj Hj Hlj. rewrite list_lookup_insert_ne; [done | congruence].
  - intros l' [j Hj]%list_elem_of_lookup.
    destruct (decide (i = j)) as [->|Hne].
    + rewrite list_lookup_insert_eq in Hj by (by eapply lookup_lt_Some).
      congruence.
    + rewrite list_lookup_insert_ne in Hj by done.
      by eapply list_elem_of_lookup_2.
  - by apply count_none_insert.
Qed.

Lemma for_each_assign_extends TOM idxs y y' :
  for_each (assign TOM) y idxs = Ok y' → extends y y'.
Proof.
  apply (for_each_invariant (extends y)); [|apply extends_refl].
  intros s x s' _ Hs Hstep. eapply extends_trans; [exact Hs|].
  by eapply assign_extends.
Qed.

Lemma pass_extends TOM y y' : pass TOM y = Ok y' → extends y y'.
Proof. apply for_each_assign_extends. Qed.

Lemma for_each_app {S A} (body : S → A → result S) s l1 l2 :
  for_each body s (l1 ++ l2) = (s' ← for_each body s l1; for_each body s' l2).
Proof.
  revert s. induction l1 as [|a l1 IH]; intros s; simpl.
  - by destruct (for_each body s l2).
  - destruct (body s a) as [s1|e]; simpl; [apply IH | reflexivity].
Qed.

(** ** A full pass *)

Lemma pass_resolved TOM y : none ∉ y → pass TOM y = Ok y.
Proof.
  intros Hy. unfold pass.
  assert (H : ∀ idxs, Forall (λ i, i < length y) idxs →
              for_each (assign TOM) y idxs = Ok y).
  { induction 1 as [|i idxs Hi _ IH]; simpl; [done|].
    apply lookup_lt_is_Some in Hi as [l Hl].
    rewrite (assign_resolved TOM y i l); [exact IH | done |].
    intros ->. apply Hy. by eapply list_elem_of_lookup_2. }
  apply H, Forall_forall. intros i. rewrite elem_of_seq. lia.
Qed.

Lemma square_row n TOM i :
  square n TOM → i < n → ∃ row, TOM !! i = Some row ∧ length row = n.
Proof.
  intros [Hlen Hrows] Hi.
  destruct (lookup_lt_is_Some_2 TOM i) as [row Hrow]; [lia|].
  exists row. split; [done|]. eapply Forall_lookup_1 in Hrows; eauto.
Qed.

(** With one resolved node and a matching TOM, the nodes of [idxs] are all
    resolved after their turn. *)
Lemma for_each_assign_resolves TOM idxs y :
  square (length y) TOM → Forall (λ i, i < length y) idxs →
  (∃ j, resolved y j) →
  ∃ y', for_each (assign TOM) y idxs = Ok y' ∧ Forall (resolved y') idxs.
Proof.
  intros Hsq Hidxs. revert y Hsq Hidxs.
  induction idxs as [|i idxs IH]; intros y Hsq Hi Hres; simpl.
  { exists y. by split. }
  apply Forall_cons in Hi as [Hi Hidxs].
  assert (∃ y1, assign TOM y i = Ok y1 ∧ resolved y1 i) as (y1 & E1 & Hi1).
  { destruct (lookup_lt_is_Some_2 y i Hi) as [l Hl].
    destruct (decide (l = none)) as [->|Hne].
    - destruct (square_row _ _ i Hsq Hi) as (row & Hrow & Hlen).
      destruct (assign_none TOM y i row Hl Hrow Hlen Hres)
        as (b & j & lj & _ & _ & _ & Hlj & _ & E).
      eexists. split; [exact E|]. exists lj.
      by rewrite list_lookup_insert_eq.
    - exists y. split; [by eapply assign_resolved | by exists l]. }
  rewrite E1. simpl.
  pose proof (assign_extends _ _ _ _ E1) as (L1 & K1 & _ & _).
  destruct (IH y1) as (y' & E' & Hy').
  { by rewrite L1. }
  { by rewrite L1. }
  { destruct Hres as (j & l & Hj & Hl). exists j, l. eauto. }
  exists y'. split; [done|]. apply Forall_cons. split; [|done].
  destruct Hi1 as (l & Hl & Hne).
  pose proof (for_each_assign_extends _ _ _ _ E') as (_ & K' & _ & _).
  exists l. eauto.
Qed.

Lemma pass_resolves TOM y :
  square (length y) TOM → (∃ j, resolved y j) →
  ∃ y', pass TOM y = Ok y' ∧ none ∉ y'.
Proof.
  intros Hsq Hres. unfold pass.
  destruct (for_each_assign_resolves TOM (seq 0 (length y)) y) as (y' & E & Hy');
    auto.
  { apply Forall_forall. intros i. rewrite elem_of_seq. lia. }
  exists y'. split; [done|].
  pose proof (for_each_assign_extends _ _ _ _ E) as (L & _).
  intros [i Hi]%list_elem_of_lookup.
  assert (Hlt : i < length y) by (rewrite <- L; by eapply lookup_lt_Some).
  eapply Forall_forall in Hy'; [|apply elem_of_seq; split; [lia | simpl; exact Hlt]].
  destruct Hy' as (l & Hl & Hne). congruence.
Qed.

(** ** The [while del0] loop *)

Lemma while_del0_mono TOM fuel fuel' y n0 del0 r :
  while_del0 fuel TOM y n0 del0 = Some r → fuel ≤ fuel' →
  while_del0 fuel' TOM y n0 del0 = Some r.
Proof.
  revert fuel' y n0 del0. induction fuel as [|fuel IH]; intros fuel' y n0 del0; [done|].
  intros H Hle. destruct fuel' as [|fuel']; [lia|]. simpl in *.
  case_decide; [done|]. destruct (pass TOM y); [|done].
  apply IH; [done | lia].
Qed.

(** The loop stops on every input: a pass never adds a placeholder, and
    the loop goes on only after a pass that removed one. *)
Lemma while_del0_terminates TOM fuel y del0 :
  count_none y + 2 ≤ fuel →
  ∃ r, while_del0 fuel TOM y (count_none y) del0 = Some r ∧
       ∀ y', r = Ok y' → extends y y'.
Proof.
  revert y del0. induction fuel as [|fuel IH]; intros y del0 Hfuel; [lia|].
  simpl. case_decide.
  { eexists. split; [done|]. intros ? [= <-]. apply extends_refl. }
  destruct (pass TOM y) as [y1|e] eqn:E1; [|eexists; split; [done | done]].
  pose proof (pass_extends _ _ _ E1) as Hext.
  destruct Hext as (L & K & El & C).
  destruct (decide (count_none y1 = count_none y)) as [Heq|Hne].
  - destruct fuel as [|fuel]; [lia|]. simpl.
    rewrite decide_True by lia.
    eexists. split; [done|]. intros ? [= <-]. done.
  - destruct (IH y1 (Z.of_nat (count_none y) - Z.of_nat (count_none y1))%Z)
      as (r & Er & Hr); [lia|].
    exists r. split; [done|]. intros y' ->.
    eapply extends_trans; [|by apply Hr]. done.
Qed.

Lemma propagate_resolved TOM y fuel :
  none ∉ y → 0 < fuel → propagate fuel TOM y = Some (Ok y).
Proof.
  intros Hy%count_none_zero Hfuel. unfold propagate. rewrite Hy.
  destruct fuel; [lia|]. reflexivity.
Qed.

(** After a pass that resolves every placeholder, the loop runs one more
    pass, finds the count unchanged and returns. *)
Lemma propagate_two_passes TOM y :
  square (length y) TOM → (∃ j, resolved y j) →
  ∃ y', propagate 3 TOM y = Some (Ok y') ∧ none ∉ y'.
Proof.
  intros Hsq Hres.
  destruct (decide (count_none y = 0)) as [H0|Hpos].
  { exists y. split; [|by apply count_none_zero].
    apply propagate_resolved; [by apply count_none_zero | lia]. }
  destruct (pass_resolves TOM y Hsq Hres) as (y1 & E1 & Hy1).
  exists y1. split; [|done].
  unfold propagate. simpl. rewrite decide_False by lia. rewrite E1.
  apply count_none_zero in Hy1 as Hc. rewrite Hc.
  rewrite decide_False by lia. rewrite (pass_resolved TOM y1 Hy1), Hc.
  reflexivity.
Qed.

(** ** Claims on the label-propagation loop *)

(** C9. Running the label-propagation loop on a label vector that holds no
    ['none'] returns that vector unchanged: [del0] starts at 0 and the
    [while] body is never entered. *)
Theorem propagate_fully_resolved_is_identity TOM y fuel :
  none ∉ y → 0 < fuel → propagate fuel TOM y = Some (Ok y).
Proof. apply propagate_resolved. Qed.

Lemma propagate_fully_resolved_is_identity_witness :
  propagate 1 tom2 [Sym "dpp"; Sym "wg"] = Some (Ok [Sym "dpp"; Sym "wg"]).
Proof.
  apply propagate_fully_resolved_is_identity; [|lia].
  intros H. repeat (apply elem_of_cons in H as [H|H]; [discriminate|]).
  by apply elem_of_nil in H.
Defined.

(** C3. When every label is ['none'] the scan does not leave the node at
    ['none']: the guard [b>len(y)] is not reached before [sortlabs[b]] is
    read at [b = len(y)], one past the end of the ranking, and the scan, the
    pass and the whole loop end in [IndexError]. *)
Theorem scan_all_none_reads_past_end TOM y fuel :
  0 < length y → (∀ l, l ∈ y → l = none) → square (length y) TOM →
  0 < fuel →
  (∀ i row, TOM !! i = Some row →
     scan y (argsort (Qopp <$> row)) 0 = Raise IndexError) ∧
  pass TOM y = Raise IndexError ∧
  propagate fuel TOM y = Some (Raise IndexError).
Proof.
  intros Hlen Hall Hsq Hfuel.
  assert (Hscan : ∀ i row, TOM !! i = Some row →
            scan y (argsort (Qopp <$> row)) 0 = Raise IndexError).
  { intros i row Hrow.
    assert (length row = length y) as Hrl.
    { destruct Hsq as [_ Hrows]. eapply Forall_lookup_1 in Hrows; eauto. }
    apply scan_exhausted.
    - apply Forall_forall. intros k Hk%argsort_elem_of.
      rewrite length_fmap, Hrl in Hk.
      apply lookup_lt_is_Some in Hk as [l Hl]. rewrite Hl. f_equal.
      apply Hall. by eapply list_elem_of_lookup_2.
    - rewrite argsort_length, length_fmap. simpl. lia. }
  assert (Hpass : pass TOM y = Raise IndexError).
  { unfold pass. destruct (length y) as [|n] eqn:En; [lia|]. simpl.
    destruct (lookup_lt_is_Some_2 y 0) as [l Hl]; [lia|].
    assert (l = none) as -> by (apply Hall; by eapply list_elem_of_lookup_2).
    destruct (square_row _ _ 0 Hsq) as (row & Hrow & _); [lia|].
    unfold assign. rewrite (getitem_Some _ _ _ Hl). simpl.
    rewrite (getitem_Some _ _ _ Hrow). simpl.
    by rewrite (Hscan 0 row Hrow). }
  split_and!; [done | done |].
  unfold propagate. destruct fuel as [|fuel]; [lia|]. simpl.
  assert (count_none y ≠ 0) as Hc.
  { rewrite count_none_zero. intros Hn. apply Hn.
    destruct (lookup_lt_is_Some_2 y 0) as [l Hl]; [lia|].
    rewrite <- (Hall l); by eapply list_elem_of_lookup_2. }
  rewrite decide_False by lia. by rewrite Hpass.
Qed.

Lemma scan_all_none_reads_past_end_witness :
  (∀ i row, tom1 !! i = Some row →
     scan [none] (argsort (Qopp <$> row)) 0 = Raise IndexError) ∧
  pass tom1 [none] = Raise IndexError ∧
  propagate 1 tom1 [none] = Some (Raise IndexError).
Proof.
  apply (scan_all_none_reads_past_end tom1 [none] 1); simpl; try lia.
  - intros l Hl. apply elem_of_cons in Hl as [Hl|Hl]; [done|].
    by apply elem_of_nil in Hl.
  - split; [reflexivity|]. repeat constructor.
Defined.

(** C2. When the turn of a node [m] labelled ['none'] comes in a pass, [m]
    takes the label of the first node of the ranking [argsort(-TOM[m,:])]
    that is resolved at that moment; every node ranked before it is
    unresolved, and no resolved node has a higher TOM similarity to [m].
    The label then stays to the end of the pass. *)
Theorem pass_adopts_most_similar_resolved TOM y m ym row :
  for_each (assign TOM) y (seq 0 m) = Ok ym →
  ym !! m = Some none →
  TOM !! m = Some row → length row = length y →
  (∃ j, resolved ym j) →
  ∃ b j l,
    argsort (Qopp <$> row) !! b = Some j ∧
    (∀ b' k, b' < b → argsort (Qopp <$> row) !! b' = Some k →
             ym !! k = Some none) ∧
    ym !! j = Some l ∧ l ≠ none ∧
    (∀ k, resolved ym k → (row !!! k <= row !!! j)%Q) ∧
    for_each (assign TOM) y (seq 0 (S m)) = Ok (<[m := l]> ym) ∧
    (∀ y', pass TOM y = Ok y' → y' !! m = Some l).
Proof.
  intros Eym Hm Hrow Hlen Hres.
  pose proof (for_each_assign_extends _ _ _ _ Eym) as (L & _).
  rewrite <- L in Hlen.
  destruct (assign_none TOM ym m row Hm Hrow Hlen Hres)
    as (b & j & l & Hb & Hpre & Hj & Hl & Hmax & E).
  assert (Estep : for_each (assign TOM) y (seq 0 (S m)) = Ok (<[m := l]> ym)).
  { rewrite seq_S, for_each_snoc, Eym. simpl. exact E. }
  exists b, j, l. split_and!; auto.
  intros y' Hpass. unfold pass in Hpass.
  assert (Hlt : m < length y) by (rewrite <- L; by eapply lookup_lt_Some).
  replace (length y) with (S m + (length y - S m)) in Hpass by lia.
  rewrite seq_app, for_each_app, Estep in Hpass. simpl in Hpass.
  apply for_each_assign_extends in Hpass as (_ & K & _).
  apply K; [|done]. apply list_lookup_insert_eq. by eapply lookup_lt_Some.
Qed.

Lemma pass_adopts_most_similar_resolved_witness :
  pass tom3 [none; Sym "dpp"; Sym "wg"] = Ok [Sym "wg"; Sym "dpp"; Sym "wg"] ∧
  ∃ b j l,
    argsort (Qopp <$> [1%Q; 1 # 3; 1 # 2]) !! b = Some j ∧
    (∀ b' k, b' < b → argsort (Qopp <$> [1%Q; 1 # 3; 1 # 2]) !! b' = Some k →
             [none; Sym "dpp"; Sym "wg"] !! k = Some none) ∧
    [none; Sym "dpp"; Sym "wg"] !! j = Some l ∧ l ≠ none ∧
    (∀ k, resolved [none; Sym "dpp"; Sym "wg"] k →
          ([1%Q; 1 # 3; 1 # 2] !!! k <= [1%Q; 1 # 3; 1 # 2] !!! j)%Q) ∧
    for_each (assign tom3) [none; Sym "dpp"; Sym "wg"] (seq 0 1)
      = Ok (<[0 := l]> [none; Sym "dpp"; Sym "wg"]) ∧
    (∀ y', pass tom3 [none; Sym "dpp"; Sym "wg"] = Ok y' → y' !! 0 = Some l).
Proof.
  split; [reflexivity|].
  apply (pass_adopts_most_similar_resolved tom3 [none; Sym "dpp"; Sym "wg"] 0);
    try reflexivity.
  exists 1, (Sym "dpp"). split; [reflexivity | discriminate].
Defined.

(** C1, as the code has it.  The loop defines no stall error.  It stops on
    every input; a vector it returns has the length of the input, keeps
    every resolved entry and holds no label that the input did not hold.
    With a TOM of the shape of the label vector and one resolved entry, two
    passes suffice and the vector returned holds no ['none']. *)
Theorem propagate_stops_and_copies_labels TOM y fuel :
  count_none y + 2 ≤ fuel →
  ∃ r, propagate fuel TOM y = Some r ∧
    (∀ y', r = Ok y' →
       length y' = length y ∧
       (∀ j l, y !! j = Some l → l ≠ none → y' !! j = Some l) ∧
       (∀ l, l ∈ y' → l ∈ y)) ∧
    (square (length y) TOM → (∃ j, resolved y j) →
       ∃ y', r = Ok y' ∧ (none ∉ y') ∧ propagate 3 TOM y = Some (Ok y')).
Proof.
  intros Hfuel. unfold propagate at 1.
  destruct (while_del0_terminates TOM fuel y (Z.of_nat (count_none y)) Hfuel)
    as (r & Er & Hr).
  exists r. split_and!; [done | |].
  - intros y' ->. destruct (Hr y' eq_refl) as (L & K & E & _). auto.
  - intros Hsq Hres.
    destruct (propagate_two_passes TOM y Hsq Hres) as (y' & E3 & Hy').
    exists y'. split_and!; [|done|done].
    unfold propagate in E3.
    pose proof (while_del0_mono _ _ (Nat.max fuel 3) _ _ _ _ Er) as H1.
    pose proof (while_del0_mono _ _ (Nat.max fuel 3) _ _ _ _ E3) as H2.
    specialize (H1 ltac:(lia)). specialize (H2 ltac:(lia)).
    rewrite H1 in H2. by injection H2.
Qed.

Lemma propagate_stops_and_copies_labels_witness :
  propagate 3 tom2 [Sym "dpp"; none] = Some (Ok [Sym "dpp"; Sym "dpp"]) ∧
  ∃ r, propagate 3 tom2 [Sym "dpp"; none] = Some r ∧
    (∀ y', r = Ok y' →
       length y' = length [Sym "dpp"; none] ∧
       (∀ j l, [Sym "dpp"; none] !! j = Some l → l ≠ none → y' !! j = Some l) ∧
       (∀ l, l ∈ y' → l ∈ [Sym "dpp"; none])) ∧
    (square (length [Sym "dpp"; none]) tom2 →
     (∃ j, resolved [Sym "dpp"; none] j) →
       ∃ y', r = Ok y' ∧ (none ∉ y') ∧
             propagate 3 tom2 [Sym "dpp"; none] = Some (Ok y')).
Proof.
  split; [reflexivity|].
  apply (propagate_stops_and_copies_labels tom2 [Sym "dpp"; none] 3).
  simpl. lia.
Defined.

(** C1, counterexample.  Where no label is resolved no pass can make
    progress; the loop raises a bare [IndexError], which carries neither a
    count nor the stuck nodes.  And a node whose TOM similarities are all 0
    is not reported either: it takes the label of the first resolved node of
    its ranking. *)
Lemma propagate_reports_no_stall :
  propagate 3 tom2 [none; none] = Some (Raise IndexError) ∧
  propagate 3 tom2 [Sym "dpp"; none] = Some (Ok [Sym "dpp"; Sym "dpp"]).
Proof. split; reflexivity. Qed.

(** ** The similarity matrix *)

Lemma elem_of_unique (l : list string) x : x ∈ unique l ↔ x ∈ l.
Proof.
  induction l as [|a l IH]; simpl; [done|].
  rewrite !elem_of_cons, list_elem_of_filter, IH.
  destruct (decide (x = a)); naive_solver.
Qed.

(** Every gene symbol has exactly one row. *)
Lemma NoDup_unique (l : list string) : NoDup (unique l).
Proof.
  induction l as [|a l IH]; simpl; constructor.
  - rewrite list_elem_of_filter. naive_solver.
  - by apply NoDup_filter.
Qed.

Lemma foldl_insert_lookup {V} (F : dataframe → V) (h : string → dataframe)
    (ks : list string) (d0 : gmap string V) g :
  foldl (λ d gp, <[gp.1 := F gp.2]> d) d0 ((λ k, (k, h k)) <$> ks) !! g
  = if decide (g ∈ ks) then Some (F (h g)) else d0 !! g.
Proof.
  revert d0. induction ks as [|k ks IH]; intros d0; csimpl.
  - reflexivity.
  - rewrite IH. destruct (decide (g ∈ ks)) as [Hin|Hnin].
    + rewrite decide_True; [done | by right].
    + destruct (decide (g = k)) as [->|Hne].
      * rewrite decide_True by (by left). by rewrite lookup_insert_eq.
      * rewrite decide_False by (rewrite elem_of_cons; naive_solver).
        by rewrite lookup_insert_ne.
Qed.

Lemma build_genedict_lookup df g :
  g ∈ unique (symb <$> df) →
  build_genedict df !! g = Some (pubs_of df g).
Proof.
  intros Hg. unfold build_genedict, groupby_symb.
  rewrite (foldl_insert_lookup (λ pub, list_to_set (pubid <$> pub))
             (λ k, filter (λ r, symb r = k) df)).
  by rewrite decide_True.
Qed.

(** A gene of the table appears in one publication at least, so the
    union of line 105 is never empty. *)
Lemma pubs_of_nonempty df g a :
  g ∈ unique (symb <$> df) → size (pubs_of df g ∪ a) ≠ 0.
Proof.
  intros Hg. apply (proj1 (elem_of_unique _ _)) in Hg.
  apply list_elem_of_fmap in Hg as (r & -> & Hr).
  assert (pubid r ∈ pubs_of df (symb r) ∪ a) as Hin.
  { apply elem_of_union_l. unfold pubs_of. apply elem_of_list_to_set.
    apply list_elem_of_fmap. exists r. split; [done|].
    by apply list_elem_of_filter. }
  intros Hsz%size_empty_inv. rewrite Hsz in Hin. set_solver.
Qed.

Lemma jaccard_step_pair df i j A :
  let ugenes := unique (symb <$> df) in
  i < length ugenes → j < length ugenes →
  jaccard_step ugenes (build_genedict df) i A j =
    (A1 ← setitem2 A i j (pair_value df i j);
     setitem2 A1 j i (pair_value df i j)).
Proof.
  intros ugenes Hi Hj. unfold jaccard_step.
  destruct (lookup_lt_is_Some_2 ugenes i Hi) as [gi Hgi].
  destruct (lookup_lt_is_Some_2 ugenes j Hj) as [gj Hgj].
  rewrite (getitem_Some _ _ _ Hgi). simpl.
  apply list_elem_of_lookup_2 in Hgi as Hgi'.
  apply list_elem_of_lookup_2 in Hgj as Hgj'.
  unfold dict_get. rewrite (build_genedict_lookup df gi Hgi'). simpl.
  rewrite (getitem_Some _ _ _ Hgj). simpl.
  rewrite (build_genedict_lookup df gj Hgj'). simpl.
  unfold jacind. rewrite decide_False by (by apply pubs_of_nonempty).
  simpl. unfold pair_value. fold ugenes.
  by rewrite (list_lookup_total_correct _ _ _ Hgi),
             (list_lookup_total_correct _ _ _ Hgj).
Qed.

Lemma square_zeros n : square n (zeros n n).
Proof.
  unfold square, zeros. split; [apply length_replicate|].
  apply Forall_replicate, length_replicate.
Qed.

Lemma entry_zeros n a b : a < n → b < n → entry (zeros n n) a b = Some 0%Q.
Proof.
  intros Ha Hb. unfold entry, zeros.
  rewrite lookup_replicate_2 by done. simpl. by apply lookup_replicate_2.
Qed.

Lemma setitem2_spec n A i j v :
  square n A → i < n → j < n →
  ∃ A', setitem2 A i j v = Ok A' ∧ square n A' ∧
    ∀ a b, entry A' a b
           = if decide (a = i ∧ b = j) then Some v else entry A a b.
Proof.
  intros Hsq Hi Hj.
  destruct (square_row n A i Hsq Hi) as (row & Hrow & Hlen).
  destruct Hsq as [HA Hrows].
  exists (<[i := <[j := v]> row]> A). split_and!.
  - unfold setitem2. rewrite (getitem_Some _ _ _ Hrow). simpl.
    by rewrite decide_True by lia.
  - split; [by rewrite length_insert|].
    apply Forall_insert; [done|]. by rewrite length_insert.
  - intros a b. unfold entry.
    destruct (decide (a = i)) as [->|Ha].
    + rewrite list_lookup_insert_eq by lia. rewrite Hrow. simpl.
      destruct (decide (b = j)) as [->|Hb].
      * rewrite decide_True by done. apply list_lookup_insert_eq. lia.
      * rewrite decide_False by naive_solver. by apply list_lookup_insert_ne.
    + rewrite decide_False by naive_solver.
      by rewrite list_lookup_insert_ne.
Qed.

Lemma jaccard_step_filled df n i m A :
  n = length (unique (symb <$> df)) → m < i → i < n →
  filled df n i m A →
  ∃ A', jaccard_step (unique (symb <$> df)) (build_genedict df) i A m = Ok A'
        ∧ filled df n i (S m) A'.
Proof.
  intros Hn Hm Hi [Hsq Hcells].
  rewrite jaccard_step_pair by lia.
  destruct (setitem2_spec n A i m (pair_value df i m) Hsq) as (A1 & E1 & Hsq1 & H1);
    [lia | lia |].
  destruct (setitem2_spec n A1 m i (pair_value df i m) Hsq1) as (A2 & E2 & Hsq2 & H2);
    [lia | lia |].
  exists A2. rewrite E1. simpl. split; [exact E2|].
  split; [exact Hsq2|]. intros a b Ha Hb.
  rewrite H2, H1, Hcells by done. unfold cell.
  destruct (decide (a = m ∧ b = i)) as [[-> ->]|Hmi].
  { rewrite decide_True by lia. by rewrite Nat.max_r, Nat.min_l by lia. }
  destruct (decide (a = i ∧ b = m)) as [[-> ->]|Him].
  { rewrite decide_True by lia. by rewrite Nat.max_l, Nat.min_r by lia. }
  repeat case_decide; try reflexivity; exfalso; lia.
Qed.

(** The inner loop, [for j in range(i)]. *)
Lemma inner_loop_filled df n i A :
  n = length (unique (symb <$> df)) → i < n → filled df n i 0 A →
  ∃ A', for_each (jaccard_step (unique (symb <$> df)) (build_genedict df) i)
                 A (seq 0 i) = Ok A'
        ∧ filled df n (S i) 0 A'.
Proof.
  intros Hn Hi HA.
  assert (H : ∀ m, m ≤ i →
    ∃ A', for_each (jaccard_step (unique (symb <$> df)) (build_genedict df) i)
                   A (seq 0 m) = Ok A' ∧ filled df n i m A').
  { induction m as [|m IH]; intros Hm.
    - exists A. by split.
    - destruct IH as (A1 & E1 & HA1); [lia|].
      destruct (jaccard_step_filled df n i m A1 Hn) as (A2 & E2 & HA2);
        [lia | lia | done |].
      exists A2. split; [|done].
      rewrite seq_S, for_each_snoc, E1. simpl. exact E2. }
  destruct (H i) as (A' & E & [Hsq Hcells]); [lia|].
  exists A'. split; [done|]. split; [done|].
  intros a b Ha Hb. rewrite Hcells by done. unfold cell.
  repeat case_decide; try reflexivity; exfalso; lia.
Qed.

(** The outer loop, [for i in range(len(ugenes))]. *)
Lemma makeJaccardMat_filled df :
  let n := length (unique (symb <$> df)) in
  ∃ A, makeJaccardMat df = Ok A ∧ filled df n n 0 A.
Proof.
  intros n. unfold makeJaccardMat. fold n.
  assert (H : ∀ m, m ≤ n →
    ∃ A, for_each (λ A i,
             for_each (jaccard_step (unique (symb <$> df)) (build_genedict df) i)
                      A (seq 0 i))
           (zeros n n) (seq 0 m) = Ok A ∧ filled df n m 0 A).
  { induction m as [|m IH]; intros Hm.
    - exists (zeros n n). split; [done|]. split; [apply square_zeros|].
      intros a b Ha Hb. rewrite entry_zeros by done. unfold cell.
      rewrite decide_False by lia. done.
    - destruct IH as (A1 & E1 & HA1); [lia|].
      destruct (inner_loop_filled df n m A1 eq_refl) as (A2 & E2 & HA2);
        [lia | done |].
      exists A2. split; [|done].
      rewrite seq_S, for_each_snoc, E1. simpl. exact E2. }
  by apply H.
Qed.

Lemma cell_final df n a b :
  a < n → b < n →
  cell df n 0 a b
  = if decide (a = b) then 0%Q else pair_value df (a `max` b) (a `min` b).
Proof.
  intros Ha Hb. unfold cell. repeat case_decide; try reflexivity; exfalso; lia.
Qed.

(** The division itself is not guarded: two empty sets would raise. *)
Lemma jacind_empty_sets : jacind ∅ ∅ = Raise ZeroDivisionError.
Proof. reflexivity. Qed.

Lemma pair_value_Jaccard df i j gi gj :
  let ugenes := unique (symb <$> df) in
  ugenes !! i = Some gi → ugenes !! j = Some gj →
  (pair_value df i j == Jaccard (pubs_of df gi) (pubs_of df gj))%Q.
Proof.
  intros ugenes Hi Hj. unfold pair_value, Jaccard. fold ugenes.
  rewrite (list_lookup_total_correct _ _ _ Hi),
          (list_lookup_total_correct _ _ _ Hj).
  assert (size (pubs_of df gi ∪ pubs_of df gj) ≠ 0) as Hu.
  { apply pubs_of_nonempty. by eapply list_elem_of_lookup_2. }
  rewrite decide_False by done.
  set (c := size (pubs_of df gi ∩ pubs_of df gj)).
  set (u := size (pubs_of df gi ∪ pubs_of df gj)) in *.
  assert (Z.of_nat u = Z.pos (Pos.of_nat u)) as ->.
  { rewrite <- (Nat2Pos.id u) at 1 by done. apply positive_nat_Z. }
  unfold Qeq, Qdiv, Qmult, Qinv. simpl. lia.
Qed.

Lemma Jaccard_comm a b : Jaccard a b = Jaccard b a.
Proof.
  unfold Jaccard.
  by rewrite (comm_L (∪) a b), (comm_L (∩) a b).
Qed.

(** ** Claims on the similarity matrix *)

(** C4. For every association table [makeJaccardMat] returns a matrix;
    it is square, with one row and one column per unique gene, equal
    entries at [(i, j)] and [(j, i)], and 0 on the diagonal. *)
Theorem makeJaccardMat_square_symmetric_zero_diagonal df :
  let n := length (unique (symb <$> df)) in
  ∃ A, makeJaccardMat df = Ok A ∧ square n A ∧
    (∀ i j, i < n → j < n →
       ∃ v, entry A i j = Some v ∧ entry A j i = Some v) ∧
    (∀ i, i < n → entry A i i = Some 0%Q).
Proof.
  intros n. destruct (makeJaccardMat_filled df) as (A & E & Hsq & Hcells).
  fold n in Hsq, Hcells. exists A. split_and!; [done | done | |].
  - intros i j Hi Hj. eexists. split; [by apply Hcells|].
    rewrite Hcells, !cell_final by done.
    destruct (decide (i = j)) as [->|Hne].
    + by rewrite decide_True.
    + rewrite decide_False by done.
      by rewrite (Nat.max_comm j i), (Nat.min_comm j i).
  - intros i Hi. rewrite Hcells, cell_final by done. by rewrite decide_True.
Qed.

(** C5. For every association table and every two positions [i ≠ j] of the
    gene list, entry [(i, j)] is the Jaccard index of the publication sets
    of the two genes, where the index of two empty sets is 0; no table makes
    the division of line 104 fail.  On the table of the scenario the three
    entries are 1/2, 1/2 and 0. *)
Theorem makeJaccardMat_entries_are_Jaccard :
  (∀ df, ∃ A, makeJaccardMat df = Ok A ∧
     ∀ i j gi gj, i ≠ j →
       unique (symb <$> df) !! i = Some gi →
       unique (symb <$> df) !! j = Some gj →
       ∃ v, entry A i j = Some v ∧
            (v == Jaccard (pubs_of df gi) (pubs_of df gj))%Q) ∧
  (unique (symb <$> df_scenario) = ["g1"; "g2"; "g3"] ∧
   ∃ A v12 v13 v23, makeJaccardMat df_scenario = Ok A ∧
     entry A 0 1 = Some v12 ∧ entry A 0 2 = Some v13 ∧ entry A 1 2 = Some v23 ∧
     (v12 == 1 # 2)%Q ∧ (v13 == 1 # 2)%Q ∧ (v23 == 0)%Q).
Proof.
  split.
  - intros df. destruct (makeJaccardMat_filled df) as (A & E & Hsq & Hcells).
    exists A. split; [done|]. intros i j gi gj Hne Hi Hj.
    apply lookup_lt_Some in Hi as Hi'. apply lookup_lt_Some in Hj as Hj'.
    eexists. split; [by apply Hcells|].
    rewrite cell_final, decide_False by done.
    destruct (Nat.max_spec i j) as [[Hlt Hmax]|[Hle Hmax]].
    + rewrite Hmax, Nat.min_l by lia.
      rewrite (Jaccard_comm (pubs_of df gi)). by apply pair_value_Jaccard.
    + rewrite Hmax, Nat.min_r by lia. by apply pair_value_Jaccard.
  - split; [reflexivity|].
    exists [[0; 1 # 2; 1 # 2]; [1 # 2; 0; 0 # 2]; [1 # 2; 0 # 2; 0]]%Q,
           (1 # 2)%Q, (1 # 2)%Q, (0 # 2)%Q.
    split_and!; reflexivity.
Qed.

(** C8, as the code has it.  A table without genes raises nothing:
    [makeJaccardMat] returns the matrix with no row. *)
Theorem makeJaccardMat_no_genes df :
  unique (symb <$> df) = [] → makeJaccardMat df = Ok [].
Proof.
  intros H. assert (df = []) as ->; [|reflexivity].
  destruct df as [|r df]; [done|]. discriminate H.
Qed.

Lemma makeJaccardMat_no_genes_witness :
  unique (symb <$> ([] : dataframe)) = [] ∧ makeJaccardMat [] = Ok [].
Proof. split; [reflexivity|]. by apply makeJaccardMat_no_genes. Defined.

(** C8, counterexample.  On the empty table the result is a value, the
    empty matrix, and not an exception. *)
Lemma makeJaccardMat_empty_is_silent : makeJaccardMat [] = Ok [].
Proof. reflexivity. Qed.

(** ** Top-degree selection *)

Lemma select_lookup N cutoff hi i :
  select N cutoff hi !! i = Some true ↔
  ∃ d, N !! i = Some d ∧ (cutoff < inject_Z d)%Q ∧ (inject_Z d < hi)%Q.
Proof.
  unfold select. rewrite list_lookup_fmap. destruct (N !! i) as [d|]; simpl.
  - split.
    + intros [= H]. apply andb_true_iff in H as [H1 H2].
      apply bool_decide_eq_true in H1, H2. eauto.
    + intros (d' & [= <-] & H1 & H2). f_equal. apply andb_true_iff.
      split; by apply bool_decide_eq_true.
  - split; [done | by intros (? & ? & _)].
Qed.

Lemma entry_mask A t i j :
  entry (mask A t) i j
  = (λ a, (a * 1 * indicator (t !!! i) * 1 * indicator (t !!! j))%Q)
      <$> entry A i j.
Proof.
  unfold entry, mask. rewrite list_lookup_imap.
  destruct (A !! i) as [r|]; simpl; [|done].
  by rewrite list_lookup_imap.
Qed.

Lemma length_mask A t : length (mask A t) = length A.
Proof. apply length_imap. Qed.

Lemma column_nonneg (A : matrix) j x :
  (∀ r a, r ∈ A → a ∈ r → (0 <= a)%Q) → x ∈ column A j → (0 <= x)%Q.
Proof.
  intros Hpos (r & -> & Hr)%list_elem_of_fmap.
  rewrite list_lookup_total_alt. destruct (r !! j) as [a|] eqn:E; simpl.
  - eapply Hpos; [done|]. by eapply list_elem_of_lookup_2.
  - apply Qle_refl.
Qed.

Lemma filter_positive_nonzero (l : list Q) :
  (∀ x, x ∈ l → (0 <= x)%Q) →
  filter (λ x, (0 < x)%Q) l = filter (λ x, ¬ (x == 0)%Q) l.
Proof.
  induction l as [|x l IH]; intros Hl; [done|].
  rewrite !filter_cons, IH by (intros; apply Hl; by right).
  assert ((0 < x)%Q ↔ ¬ (x == 0)%Q) as Hiff.
  { specialize (Hl x ltac:(by left)). split.
    - intros Hlt Heq. rewrite Heq in Hlt. by apply Qlt_irrefl in Hlt.
    - intros Hne. apply Qle_lteq in Hl as [Hlt|Heq]; [done|].
      exfalso. apply Hne. by symmetry. }
  repeat case_decide; tauto.
Qed.

(** C6. With the degree of a node the number of positive entries of its
    column (on a matrix without negative entries: of its nonzero entries),
    a node is selected exactly when its degree lies strictly between the
    [(100 - thr)]-th and the 99.9th percentile of the degrees; the
    clustering routine is called on [A2], whose entries in the row or the
    column of a node that is not selected are 0. *)
Theorem top_degree_selection percentile fit_predict A names thr k cutoff hi :
  percentile (degrees A) (100 - thr)%Q = Ok cutoff →
  percentile (degrees A) (999 # 10)%Q = Ok hi →
  let N := degrees A in
  let topnodes := select N cutoff hi in
  let A2 := mask A topnodes in
  (∀ j, j < ncols A →
     N !! j = Some (Z.of_nat (length (filter (λ x, (0 < x)%Q) (column A j))))) ∧
  ((∀ r a, r ∈ A → a ∈ r → (0 <= a)%Q) → ∀ j, j < ncols A →
     N !! j
     = Some (Z.of_nat (length (filter (λ x, ¬ (x == 0)%Q) (column A j))))) ∧
  (∀ i, topnodes !! i = Some true ↔
        ∃ d, N !! i = Some d ∧ (cutoff < inject_Z d)%Q ∧ (inject_Z d < hi)%Q) ∧
  cluster_labels percentile fit_predict A names thr k
  = (yarr ← fit_predict k A2;
     for_each (name_cluster N topnodes names yarr) (Raw <$> yarr) (seq 0 k)) ∧
  (∀ i j, entry A2 i j
          = (λ a, (a * 1 * indicator (topnodes !!! i)
                     * 1 * indicator (topnodes !!! j))%Q) <$> entry A i j) ∧
  (∀ i j v, entry A2 i j = Some v →
     topnodes !! i = Some false ∨ topnodes !! j = Some false → (v == 0)%Q).
Proof.
  intros Hcut Hhi N topnodes A2.
  assert (Hdeg : ∀ j, j < ncols A →
    N !! j = Some (Z.of_nat (length (filter (λ x, (0 < x)%Q) (column A j))))).
  { intros j Hj. unfold N, degrees. rewrite list_lookup_fmap.
    by rewrite lookup_seq_lt. }
  split_and!.
  - exact Hdeg.
  - intros Hpos j Hj. rewrite Hdeg by done.
    rewrite filter_positive_nonzero; [done|].
    intros x Hx. by eapply column_nonneg.
  - apply select_lookup.
  - unfold cluster_labels. rewrite Hcut. simpl. rewrite Hhi. done.
  - intros i j. apply entry_mask.
  - intros i j v Hv Hsel. unfold A2 in Hv. rewrite entry_mask in Hv.
    destruct (entry A i j) as [a|]; [|done]. injection Hv as <-.
    destruct Hsel as [Hf|Hf];
      rewrite (list_lookup_total_correct _ _ _ Hf); unfold indicator at 1 2;
      simpl; ring.
Qed.

Lemma top_degree_selection_witness :
  select (degrees sample_adj) (16500 # 10000) (2991000 # 1000000)
  = [true; false; false; false; false; false; false; false; false; false] ∧
  ∀ i j v,
    entry (mask sample_adj
             (select (degrees sample_adj) (16500 # 10000) (2991000 # 1000000)))
          i j = Some v →
    select (degrees sample_adj) (16500 # 10000) (2991000 # 1000000) !! i
      = Some false ∨
    select (degrees sample_adj) (16500 # 10000) (2991000 # 1000000) !! j
      = Some false →
    (v == 0)%Q.
Proof.
  split; [reflexivity|].
  apply (top_degree_selection np_percentile sample_fit sample_adj sample_names
           15 3 (16500 # 10000) (2991000 # 1000000)); reflexivity.
Defined.

(** ** Naming the clusters *)

Lemma rename_pending names m k new y :
  named names new → Forall (pending names m k) y →
  Forall (pending names (S m) k) (rename (Z.of_nat m) new y).
Proof.
  intros Hnew Hy. unfold rename. apply Forall_fmap.
  eapply Forall_impl; [exact Hy|]. intros l Hl. simpl.
  case_decide as Hraw; [by left|].
  destruct Hl as [Hl|(c & -> & Hc)]; [by left|].
  right. exists c. split; [done|].
  assert (c ≠ Z.of_nat m) by congruence. lia.
Qed.

Lemma name_cluster_pending N t names yarr y m k y' :
  name_cluster N t names yarr y m = Ok y' →
  Forall (pending names m k) y →
  Forall (pending names (S m) k) y' ∧ length y' = length y.
Proof.
  unfold name_cluster. intros H Hy.
  destruct (argmax _) as [topind|]; simpl in H; [|done].
  destruct (getitem t topind) as [[|]|]; simpl in H; [| |done].
  - destruct (getitem names topind) as [nm|] eqn:E; simpl in H; [|done].
    injection H as <-. split; [|apply length_fmap].
    apply rename_pending; [|done]. right. exists nm. split; [|done].
    apply getitem_Ok_inv in E. by eapply list_elem_of_lookup_2.
  - injection H as <-. split; [|apply length_fmap].
    apply rename_pending; [|done]. by left.
Qed.

(** The loop [for i in range(k)] up to cluster [m]. *)
Lemma naming_loop_pending N t names yarr k m y0 y :
  for_each (name_cluster N t names yarr) y0 (seq 0 m) = Ok y →
  Forall (pending names 0 k) y0 →
  Forall (pending names m k) y ∧ length y = length y0.
Proof.
  revert y. induction m as [|m IH]; intros y.
  - simpl. intros [= <-]. done.
  - rewrite seq_S, for_each_snoc. simpl.
    destruct (for_each _ y0 (seq 0 m)) as [y1|] eqn:E1; simpl; [|done].
    intros Hstep Hy0. destruct (IH y1 eq_refl Hy0) as [H1 L1].
    destruct (name_cluster_pending _ _ _ _ _ _ k _ Hstep H1) as [H2 L2].
    split; [done | congruence].
Qed.

Lemma cluster_labels_named percentile fit_predict A names thr k y :
  (∀ k M yarr, fit_predict k M = Ok yarr →
     length yarr = length M ∧ Forall (λ c, (0 ≤ c < Z.of_nat k)%Z) yarr) →
  cluster_labels percentile fit_predict A names thr k = Ok y →
  length y = length A ∧ Forall (named names) y.
Proof.
  intros Hfit. unfold cluster_labels.
  destruct (percentile (degrees A) (100 - thr)%Q) as [cutoff|]; simpl; [|done].
  destruct (percentile (degrees A) _) as [hi|]; simpl; [|done].
  destruct (fit_predict k _) as [yarr|] eqn:E; simpl; [|done].
  apply Hfit in E as [Hlen Hrange]. rewrite length_mask in Hlen.
  intros Hloop. apply (naming_loop_pending _ _ _ _ k) in Hloop as [Hy Ly].
  - split; [by rewrite Ly, length_fmap|].
    eapply Forall_impl; [exact Hy|]. intros l [Hl|(c & _ & Hc)]; [done | lia].
  - apply Forall_fmap. eapply Forall_impl; [exact Hrange|].
    intros c Hc. simpl in Hc. right. exists c. split; [done | lia].
Qed.

Lemma propagate_extends fuel TOM y y' :
  propagate fuel TOM y = Some (Ok y') → extends y y'.
Proof.
  intros H. unfold propagate in H.
  destruct (while_del0_terminates TOM (Nat.max fuel (count_none y + 2)) y
              (Z.of_nat (count_none y))) as (r & Er & Hr); [lia|].
  apply (while_del0_mono _ _ (Nat.max fuel (count_none y + 2))) in H; [|lia].
  rewrite Er in H. injection H as ->. by apply Hr.
Qed.

Lemma split_fit_contract k M yarr :
  split_fit k M = Ok yarr →
  length yarr = length M ∧ Forall (λ c, (0 ≤ c < Z.of_nat k)%Z) yarr.
Proof.
  unfold split_fit. case_decide as Hk; [done|]. intros [= <-].
  split; [by rewrite length_fmap, length_seq|].
  apply Forall_fmap, Forall_forall. intros i _. simpl. case_decide; lia.
Qed.

Lemma argmax_from_spec (l : list Z) a best bv i :
  drop i l = a → l !! best = Some bv → best < i →
  (∀ j x, j < i → l !! j = Some x → (x ≤ bv)%Z) →
  (∀ j x, j < best → l !! j = Some x → (x < bv)%Z) →
  ∃ v, l !! argmax_from best bv i a = Some v ∧
       (∀ j x, l !! j = Some x → (x ≤ v)%Z) ∧
       (∀ j x, j < argmax_from best bv i a → l !! j = Some x → (x < v)%Z).
Proof.
  revert best bv i. induction a as [|x a IH]; intros best bv i Hdrop Hbest Hlt Hle Hfirst.
  - simpl. exists bv. split_and!; [done | | done].
    intros j y Hj. apply (Hle j); [|done].
    apply lookup_lt_Some in Hj.
    assert (length (drop i l) = 0) as Hlen by (by rewrite Hdrop).
    rewrite length_drop in Hlen. lia.
  - assert (l !! i = Some x) as Hi.
    { rewrite <- (Nat.add_0_r i), <- lookup_drop, Hdrop. done. }
    assert (drop (S i) l = a) as Hdrop'.
    { rewrite (drop_S _ _ _ Hi) in Hdrop. by injection Hdrop. }
    simpl. case_decide as Hcmp.
    + apply IH; [done | done | lia | |].
      * intros j y Hj Hy. destruct (decide (j = i)) as [->|Hne].
        { rewrite Hi in Hy. injection Hy as <-. lia. }
        specialize (Hle j y ltac:(lia) Hy). lia.
      * intros j y Hj Hy. specialize (Hle j y Hj Hy). lia.
    + apply IH; [done | done | lia | | done].
      intros j y Hj Hy. destruct (decide (j = i)) as [->|Hne].
      { rewrite Hi in Hy. injection Hy as <-. lia. }
      apply (Hle j); [lia | done].
Qed.

(** [np.argmax] returns the first index of the largest value. *)
Lemma argmax_spec (l : list Z) :
  l ≠ [] →
  ∃ t v, argmax l = Ok t ∧ l !! t = Some v ∧
    (∀ j x, l !! j = Some x → (x ≤ v)%Z) ∧
    (∀ j x, j < t → l !! j = Some x → (x < v)%Z).
Proof.
  destruct l as [|x a]; [done|]. intros _.
  destruct (argmax_from_spec (x :: a) a 0 x 1) as (v & Hv & Hmax & Hfirst);
    [done | done | lia | | |].
  - intros [|j] y Hj Hy; [|lia]. injection Hy as <-. lia.
  - intros j y Hj. lia.
  - exists (argmax_from 0 x 1 a), v. done.
Qed.

Lemma masked_degrees_lookup N yarr i j d c :
  N !! j = Some d → yarr !! j = Some c →
  masked_degrees N yarr i !! j
  = Some (d * (if decide (c = i) then 1 else 0))%Z.
Proof.
  intros Hd Hc. unfold masked_degrees. rewrite lookup_zip_with, Hd. simpl.
  by rewrite Hc.
Qed.

(** The part of C7 that the code satisfies: when some node of cluster [i]
    has a positive degree, [topind] is a node of cluster [i] whose degree is
    the largest of the cluster, and the cluster takes its name, or ['none']
    when it is not selected. *)
Lemma name_cluster_top_node N topnodes names yarr y (i : nat) j0 d0 :
  length N = length yarr →
  yarr !! j0 = Some (Z.of_nat i) → N !! j0 = Some d0 → (0 < d0)%Z →
  ∃ topind d,
    argmax (masked_degrees N yarr (Z.of_nat i)) = Ok topind ∧
    yarr !! topind = Some (Z.of_nat i) ∧ N !! topind = Some d ∧
    (∀ j dj, yarr !! j = Some (Z.of_nat i) → N !! j = Some dj → (dj ≤ d)%Z) ∧
    name_cluster N topnodes names yarr y i
    = (t ← getitem topnodes topind;
       if (t : bool) then
         nm ← getitem names topind;
         Ok (rename (Z.of_nat i) (Sym (nm : string)) y)
       else Ok (rename (Z.of_nat i) none y)).
Proof.
  intros Hlen Hj0 Hd0 Hpos.
  pose proof (masked_degrees_lookup N yarr (Z.of_nat i) j0 d0 _ Hd0 Hj0) as Hm0.
  rewrite decide_True in Hm0 by done.
  destruct (argmax_spec (masked_degrees N yarr (Z.of_nat i)))
    as (t & v & Et & Hv & Hmax & _).
  { intros Hnil. by rewrite Hnil in Hm0. }
  assert (0 < v)%Z as Hvpos by (specialize (Hmax _ _ Hm0); lia).
  assert (t < length (masked_degrees N yarr (Z.of_nat i))) as Ht
    by (by eapply lookup_lt_Some).
  unfold masked_degrees in Ht. rewrite length_zip_with in Ht.
  destruct (lookup_lt_is_Some_2 N t) as [d Hd]; [lia|].
  destruct (lookup_lt_is_Some_2 yarr t) as [c Hc]; [lia|].
  rewrite (masked_degrees_lookup _ _ _ _ _ _ Hd Hc) in Hv.
  injection Hv as Hv. case_decide as Hci; [subst c | lia].
  exists t, d. split_and!; [done | done | done | |].
  - intros j dj Hj Hdj.
    pose proof (masked_degrees_lookup N yarr (Z.of_nat i) j dj _ Hdj Hj) as Hmj.
    rewrite decide_True in Hmj by done. specialize (Hmax _ _ Hmj). lia.
  - unfold name_cluster. by rewrite Et.
Qed.

(** The whole function on a single gene without neighbours: no cluster is
    named and the propagation loop raises. *)
Lemma clustNetwork_Adj_all_unresolved :
  cluster_labels np_percentile (λ _ _, Ok [0%Z]) [[0%Q]] ["g0"] 15 1
  = Ok [none] ∧
  clustNetwork_Adj np_percentile (λ _ _, Ok [0%Z]) 1 [[0%Q]] tom1 ["g0"] 15 1
  = Some (Raise IndexError).
Proof. split; reflexivity. Qed.

(** ** Claims on the label vector *)

(** C10. With a clustering routine that returns one integer of [0 .. k-1]
    per row of the matrix it is given, a label vector returned by
    [clustNetwork_Adj] has one entry per row of [A], each of them ['none'] or
    an element of [names]; none is a raw cluster id. *)
Theorem clustNetwork_Adj_returns_names percentile fit_predict fuel
    A TOM names thr k y :
  (∀ k M yarr, fit_predict k M = Ok yarr →
     length yarr = length M ∧ Forall (λ c, (0 ≤ c < Z.of_nat k)%Z) yarr) →
  clustNetwork_Adj percentile fit_predict fuel A TOM names thr k
    = Some (Ok y) →
  length y = length A ∧
  (∀ l, l ∈ y → l = none ∨ ∃ s, s ∈ names ∧ l = Sym s) ∧
  (∀ l c, l ∈ y → l ≠ Raw c).
Proof.
  intros Hfit. unfold clustNetwork_Adj.
  destruct (cluster_labels _ _ _ _ _ _) as [y0|] eqn:E0; [|done].
  apply (cluster_labels_named _ _ _ _ _ _ _ Hfit) in E0 as [L0 H0].
  intros (L & _ & El & _)%propagate_extends.
  assert (Hnamed : ∀ l, l ∈ y → named names l).
  { intros l Hl%El. eapply Forall_forall in H0; eauto. }
  split_and!; [congruence | exact Hnamed |].
  intros l c Hl%Hnamed ->. by destruct Hl as [?|(? & _ & ?)].
Qed.

Lemma clustNetwork_Adj_returns_names_witness :
  clustNetwork_Adj np_percentile split_fit 3 sample_adj sample_adj
    sample_names 15 2 = Some (Ok (replicate 10 (Sym "g0"))) ∧
  length (replicate 10 (Sym "g0")) = length sample_adj ∧
  (∀ l, l ∈ replicate 10 (Sym "g0") →
        l = none ∨ ∃ s, s ∈ sample_names ∧ l = Sym s) ∧
  (∀ l c, l ∈ replicate 10 (Sym "g0") → l ≠ Raw c).
Proof.
  split; [reflexivity|].
  apply (clustNetwork_Adj_returns_names np_percentile split_fit 3
           sample_adj sample_adj sample_names 15 2);
    [apply split_fit_contract | reflexivity].
Defined.

(** C7, the failing input.  Gene 9 has degree 0 and is alone in cluster 2,
    so [N*(yarr==2)] is 0 everywhere and [argmax] answers 0: the cluster is
    named after gene 0, a selected node of cluster 0, and gene 9 leaves the
    loop labelled [g0] where the top node of its own cluster, gene 9 itself,
    is not selected. *)
Theorem zero_degree_cluster_takes_name_of_node_0 :
  degrees sample_adj = [2; 3; 1; 1; 1; 1; 1; 1; 1; 0]%Z ∧
  np_percentile (degrees sample_adj) (100 - 15)%Q = Ok (16500 # 10000)%Q ∧
  np_percentile (degrees sample_adj) (999 # 10)%Q = Ok (2991000 # 1000000)%Q ∧
  select (degrees sample_adj) (16500 # 10000) (2991000 # 1000000)
  = [true; false; false; false; false; false; false; false; false; false] ∧
  sample_fit 3 (mask sample_adj
     (select (degrees sample_adj) (16500 # 10000) (2991000 # 1000000)))
  = Ok [0; 1; 1; 1; 1; 0; 0; 0; 0; 2]%Z ∧
  masked_degrees (degrees sample_adj) [0; 1; 1; 1; 1; 0; 0; 0; 0; 2]%Z 2
  = [0; 0; 0; 0; 0; 0; 0; 0; 0; 0]%Z ∧
  argmax (masked_degrees (degrees sample_adj)
            [0; 1; 1; 1; 1; 0; 0; 0; 0; 2]%Z 2) = Ok 0 ∧
  cluster_labels np_percentile sample_fit sample_adj sample_names 15 3
  = Ok [Sym "g0"; none; none; none; none;
        Sym "g0"; Sym "g0"; Sym "g0"; Sym "g0"; Sym "g0"].
Proof. split_and!; reflexivity. Qed.

(** * Further properties *)

(** ** The guard of the neighbour scan is never taken *)

(** When the scan answers ['none'] it has read more entries of the ranking
    than [y] has nodes, each of them an index into [y]. *)
Lemma scan_none_prefix y rest b :
  scan y rest b = Ok none →
  ∃ pre post, rest = pre ++ post ∧
    Forall (λ k, k < length y) pre ∧ length y < b + length pre.
Proof.
  revert b. induction rest as [|idx rest IH]; intros b; simpl; [done|].
  destruct (getitem y idx) as [ltest|] eqn:E; simpl; [|done].
  apply getitem_Ok_inv, lookup_lt_Some in E.
  case_decide as Hn; [|by intros [= ->]].
  case_decide as Hb.
  - intros _. exists [idx], rest. split_and!; [done | by constructor | simpl; lia].
  - intros (pre & post & -> & Hpre & Hlen)%IH.
    exists (idx :: pre), post. split_and!; [done | by constructor | simpl; lia].
Qed.

Lemma scan_argsort_not_none y v l :
  scan y (argsort v) 0 = Ok l → l ≠ none.
Proof.
  intros Hscan ->.
  apply scan_none_prefix in Hscan as (pre & post & Hs & Hpre & Hlen).
  assert (NoDup pre) as Hnd.
  { pose proof (NoDup_seq 0 (length v)) as H.
    rewrite <- argsort_Permutation, Hs in H. by apply NoDup_app in H as [? _]. }
  assert (pre ⊆+ seq 0 (length y)) as Hsub.
  { apply NoDup_submseteq; [done|]. intros k Hk. apply elem_of_seq.
    eapply Forall_forall in Hpre; [|done]. simpl in *. lia. }
  apply submseteq_length in Hsub. rewrite length_seq in Hsub. simpl in Hlen. lia.
Qed.

Lemma assign_Ok_resolved TOM y i y' :
  i < length y → assign TOM y i = Ok y' → resolved y' i.
Proof.
  intros Hi. unfold assign.
  destruct (lookup_lt_is_Some_2 y i Hi) as [yi Hyi].
  rewrite (getitem_Some _ _ _ Hyi). simpl.
  case_decide as Hn; [subst yi | intros [= <-]; by exists yi].
  destruct (getitem TOM i) as [row|]; simpl; [|done].
  destruct (scan y _ 0) as [l|] eqn:Es; simpl; [|done].
  intros [= <-]. exists l. split; [by apply list_lookup_insert_eq|].
  by eapply scan_argsort_not_none.
Qed.

Lemma for_each_assign_Ok_resolved TOM idxs y y' :
  Forall (λ i, i < length y) idxs →
  for_each (assign TOM) y idxs = Ok y' → Forall (resolved y') idxs.
Proof.
  revert y. induction idxs as [|i idxs IH]; intros y Hidxs; simpl; [done|].
  apply Forall_cons in Hidxs as [Hi Hidxs].
  destruct (assign TOM y i) as [y1|] eqn:E1; simpl; [|done].
  intros E'. pose proof (assign_extends _ _ _ _ E1) as (L1 & _).
  apply Forall_cons. split.
  - destruct (assign_Ok_resolved _ _ _ _ Hi E1) as (l & Hl & Hne).
    pose proof (for_each_assign_extends _ _ _ _ E') as (_ & K & _).
    exists l. eauto.
  - apply (IH y1); [by rewrite L1 | done].
Qed.

(** A pass that completes leaves no placeholder, whatever the TOM. *)
Lemma pass_Ok_no_none TOM y y' : pass TOM y = Ok y' → none ∉ y'.
Proof.
  intros E. unfold pass in E.
  pose proof (for_each_assign_extends _ _ _ _ E) as (L & _).
  apply for_each_assign_Ok_resolved in E.
  2:{ apply Forall_forall. intros i. rewrite elem_of_seq. lia. }
  intros [i Hi]%list_elem_of_lookup.
  assert (i < length y) as Hlt by (rewrite <- L; by eapply lookup_lt_Some).
  eapply Forall_forall in E; [|apply elem_of_seq; split; [lia | simpl; exact Hlt]].
  destruct E as (l & Hl & Hne). congruence.
Qed.

Lemma propagate_Ok_no_none fuel TOM y y' :
  propagate fuel TOM y = Some (Ok y') → none ∉ y'.
Proof.
  unfold propagate. destruct fuel as [|fuel]; [done|]. simpl.
  case_decide as H0.
  { intros [= <-]. apply count_none_zero. lia. }
  destruct (pass TOM y) as [y1|] eqn:E1; [|done].
  apply pass_Ok_no_none in E1 as Hy1. apply count_none_zero in Hy1 as Hc.
  rewrite Hc. destruct fuel as [|fuel]; [done|]. simpl.
  rewrite decide_False by lia. rewrite (pass_resolved TOM y1 Hy1), Hc.
  destruct fuel as [|fuel]; [done|]. simpl. by intros [= <-].
Qed.

(** X1. The branch [yil='none'] of the scan is dead code: on the ranking of
    any row the scan answers a label other than ['none'] or raises, so a
    label vector that the propagation loop returns holds no ['none'],
    whatever the shape of the TOM. *)
Theorem propagate_returns_no_placeholder fuel TOM y y' :
  propagate fuel TOM y = Some (Ok y') →
  (∀ l, l ∈ y' → l ≠ none) ∧
  (∀ v l, scan y (argsort v) 0 = Ok l → l ≠ none).
Proof.
  intros H%propagate_Ok_no_none. split.
  - intros l Hl ->. done.
  - intros v l. apply scan_argsort_not_none.
Qed.

Lemma propagate_returns_no_placeholder_witness :
  propagate 3 tom3 [none; Sym "dpp"; none]
  = Some (Ok [Sym "dpp"; Sym "dpp"; Sym "dpp"]) ∧
  (∀ l, l ∈ [Sym "dpp"; Sym "dpp"; Sym "dpp"] → l ≠ none) ∧
  (∀ v l, scan [none; Sym "dpp"; none] (argsort v) 0 = Ok l → l ≠ none).
Proof.
  split; [reflexivity|].
  by apply (propagate_returns_no_placeholder 3 tom3 [none; Sym "dpp"; none]).
Defined.

(** X2. With a clustering routine that honours its contract, every entry
    of a label vector returned by [clustNetwork_Adj] is a gene symbol of
    [names]: the placeholder ['none'] never reaches the caller. *)
Theorem clustNetwork_Adj_returns_gene_symbols percentile fit_predict fuel
    A TOM names thr k y :
  (∀ k M yarr, fit_predict k M = Ok yarr →
     length yarr = length M ∧ Forall (λ c, (0 ≤ c < Z.of_nat k)%Z) yarr) →
  clustNetwork_Adj percentile fit_predict fuel A TOM names thr k
    = Some (Ok y) →
  ∀ l, l ∈ y → ∃ s, s ∈ names ∧ l = Sym s ∧ s ≠ "none".
Proof.
  intros Hfit. unfold clustNetwork_Adj.
  destruct (cluster_labels _ _ _ _ _ _) as [y0|] eqn:E0; [|done].
  apply (cluster_labels_named _ _ _ _ _ _ _ Hfit) in E0 as [L0 H0].
  intros Hp l Hl. apply propagate_Ok_no_none in Hp as Hnone.
  apply propagate_extends in Hp as (_ & _ & El & _).
  apply El in Hl as Hl0. eapply Forall_forall in H0; [|exact Hl0].
  destruct H0 as [->|(s & Hs & ->)]; [done|].
  exists s. split_and!; [done | done |]. intros ->. by apply Hnone.
Qed.

Lemma clustNetwork_Adj_returns_gene_symbols_witness :
  clustNetwork_Adj np_percentile split_fit 3 sample_adj sample_adj
    sample_names 15 2 = Some (Ok (replicate 10 (Sym "g0"))) ∧
  Forall (λ l, ∃ s, s ∈ sample_names ∧ l = Sym s ∧ s ≠ "none")
         (replicate 10 (Sym "g0")).
Proof.
  split; [reflexivity|]. apply Forall_forall.
  apply (clustNetwork_Adj_returns_gene_symbols np_percentile split_fit 3
           sample_adj sample_adj sample_names 15 2);
    [apply split_fit_contract | reflexivity].
Defined.

(** ** Values of the similarity matrix *)

Lemma makeJaccardMat_entry df A i j v :
  makeJaccardMat df = Ok A → entry A i j = Some v →
  i < length (unique (symb <$> df)) ∧ j < length (unique (symb <$> df)) ∧
  v = if decide (i = j) then 0%Q else pair_value df (i `max` j) (i `min` j).
Proof.
  intros E Hv. destruct (makeJaccardMat_filled df) as (A0 & E0 & Hsq & Hcells).
  rewrite E in E0. injection E0 as <-.
  assert (i < length (unique (symb <$> df)) ∧ j < length (unique (symb <$> df)))
    as [Hi Hj].
  { unfold entry in Hv. destruct (A !! i) as [r|] eqn:Er; simpl in Hv; [|done].
    destruct Hsq as [HA Hrows]. split.
    - rewrite <- HA. by eapply lookup_lt_Some.
    - eapply Forall_lookup_1 in Hrows; [|exact Er]. simpl in Hrows.
      rewrite <- Hrows. by eapply lookup_lt_Some. }
  split_and!; [done | done |].
  rewrite Hcells, cell_final in Hv by done. by injection Hv.
Qed.

Lemma Zpos_of_nat u : u ≠ 0 → Z.pos (Pos.of_nat u) = Z.of_nat u.
Proof. intros Hu. by rewrite <- (positive_nat_Z (Pos.of_nat u)), Nat2Pos.id. Qed.

Lemma Jaccard_bounds (a b : gset Z) : (0 <= Jaccard a b <= 1)%Q.
Proof.
  unfold Jaccard. case_decide as Hu; [done|].
  assert (size (a ∩ b) ≤ size (a ∪ b)) as Hle
    by (apply subseteq_size; set_solver).
  split; unfold Qle; simpl; rewrite ?(Zpos_of_nat _ Hu); lia.
Qed.

Lemma Jaccard_zero (a b : gset Z) :
  size (a ∪ b) ≠ 0 → (Jaccard a b == 0)%Q ↔ a ∩ b = ∅.
Proof.
  intros Hu. unfold Jaccard. rewrite decide_False by done.
  unfold Qeq. simpl. rewrite Z.mul_1_r.
  split.
  - intros H0. apply leibniz_equiv, size_empty_iff. lia.
  - intros ->. by rewrite size_empty.
Qed.

Lemma Jaccard_one (a b : gset Z) :
  size (a ∪ b) ≠ 0 → (Jaccard a b == 1)%Q ↔ a = b.
Proof.
  intros Hu. unfold Jaccard. rewrite decide_False by done.
  unfold Qeq. simpl. rewrite Z.mul_1_r, (Zpos_of_nat _ Hu).
  split.
  - intros Heq. assert (a ∩ b = a ∪ b) as Hsets.
    { apply set_subseteq_size_eq; [set_solver | lia]. }
    set_solver.
  - intros ->. rewrite (idemp_L (∩) b), (idemp_L (∪) b). lia.
Qed.

(** X3. Every entry of the matrix returned by [makeJaccardMat] lies
    between 0 and 1. *)
Theorem makeJaccardMat_entries_in_unit_interval df A i j v :
  makeJaccardMat df = Ok A → entry A i j = Some v → (0 <= v <= 1)%Q.
Proof.
  intros E Hv. destruct (makeJaccardMat_entry _ _ _ _ _ E Hv) as (Hi & Hj & ->).
  case_decide as Hij; [done|].
  set (n := length (unique (symb <$> df))) in *.
  destruct (lookup_lt_is_Some_2 (unique (symb <$> df)) (i `max` j)) as [g1 Hg1];
    [lia|].
  destruct (lookup_lt_is_Some_2 (unique (symb <$> df)) (i `min` j)) as [g2 Hg2];
    [lia|].
  rewrite (pair_value_Jaccard df _ _ _ _ Hg1 Hg2). apply Jaccard_bounds.
Qed.

Lemma makeJaccardMat_entries_in_unit_interval_witness :
  entry [[0; 1 # 2; 1 # 2]; [1 # 2; 0; 0 # 2]; [1 # 2; 0 # 2; 0]]%Q 0 1
  = Some (1 # 2)%Q ∧ (0 <= 1 # 2 <= 1)%Q.
Proof.
  split; [reflexivity|].
  apply (makeJaccardMat_entries_in_unit_interval df_scenario
           [[0; 1 # 2; 1 # 2]; [1 # 2; 0; 0 # 2]; [1 # 2; 0 # 2; 0]]%Q 0 1);
    reflexivity.
Defined.

(** X4. Off the diagonal, an entry is 0 exactly when the two genes share
    no publication, and 1 exactly when they appear in the same
    publications. *)
Theorem makeJaccardMat_zero_and_one df A i j gi gj v :
  makeJaccardMat df = Ok A → i ≠ j →
  unique (symb <$> df) !! i = Some gi →
  unique (symb <$> df) !! j = Some gj →
  entry A i j = Some v →
  ((v == 0)%Q ↔ pubs_of df gi ∩ pubs_of df gj = ∅) ∧
  ((v == 1)%Q ↔ pubs_of df gi = pubs_of df gj).
Proof.
  intros E Hij Hgi Hgj Hv.
  destruct (makeJaccardMat_entry _ _ _ _ _ E Hv) as (Hi & Hj & ->).
  rewrite decide_False by done.
  assert (size (pubs_of df gi ∪ pubs_of df gj) ≠ 0) as Hu.
  { apply pubs_of_nonempty. by eapply list_elem_of_lookup_2. }
  assert (pair_value df (i `max` j) (i `min` j)
          == Jaccard (pubs_of df gi) (pubs_of df gj))%Q as ->.
  { destruct (Nat.max_spec i j) as [[Hlt Hmax]|[Hle Hmax]].
    - rewrite Hmax, Nat.min_l by lia.
      rewrite (Jaccard_comm (pubs_of df gi)). by apply pair_value_Jaccard.
    - rewrite Hmax, Nat.min_r by lia. by apply pair_value_Jaccard. }
  split; [by apply Jaccard_zero | by apply Jaccard_one].
Qed.

Lemma makeJaccardMat_zero_and_one_witness :
  ((0 # 2 == 0)%Q ↔ pubs_of df_scenario "g2" ∩ pubs_of df_scenario "g3" = ∅) ∧
  ((0 # 2 == 1)%Q ↔ pubs_of df_scenario "g2" = pubs_of df_scenario "g3").
Proof.
  apply (makeJaccardMat_zero_and_one df_scenario
           [[0; 1 # 2; 1 # 2]; [1 # 2; 0; 0 # 2]; [1 # 2; 0 # 2; 0]]%Q
           1 2 "g2" "g3"); try reflexivity. lia.
Defined.

(** ** Cleaning the association table *)

Lemma filter_ext_in {A} (P Q : A → Prop)
    `{!∀ x, Decision (P x), !∀ x, Decision (Q x)} (l : list A) :
  (∀ x, x ∈ l → P x ↔ Q x) → filter P l = filter Q l.
Proof.
  induction l as [|a l IH]; intros Hl; [done|].
  rewrite !filter_cons, IH by (intros; apply Hl; by right).
  pose proof (Hl a ltac:(by left)). repeat case_decide; tauto.
Qed.

Lemma filter_all {A} (P : A → Prop) `{!∀ x, Decision (P x)} (l : list A) :
  (∀ x, x ∈ l → P x) → filter P l = l.
Proof.
  induction l as [|a l IH]; intros Hl; [done|].
  rewrite filter_cons, decide_True by (apply Hl; by left).
  rewrite IH; [done|]. intros; apply Hl; by right.
Qed.

Lemma foldl_drop_pub df ps :
  foldl drop_pub df ps = filter (λ r, pubid r ∉ ps) df.
Proof.
  revert df. induction ps as [|p ps IH]; intros df; simpl.
  - symmetry. apply filter_all. intros r _. apply not_elem_of_nil.
  - rewrite IH. unfold drop_pub. rewrite list_filter_filter.
    apply list_filter_iff. intros r. rewrite not_elem_of_cons. naive_solver.
Qed.

Lemma elem_of_groupby_pubid df pg :
  pg ∈ groupby_pubid df ↔
  pg.1 ∈ pubid <$> df ∧ pg.2 = filter (λ r, pubid r = pg.1) df.
Proof.
  unfold groupby_pubid. rewrite list_elem_of_fmap. split.
  - intros (p & -> & Hp). rewrite merge_sort_Permutation in Hp.
    simpl. split; [by apply elem_of_remove_dups | done].
  - intros [Hp Hg]. exists pg.1. split; [by destruct pg; simpl in *; subst|].
    rewrite merge_sort_Permutation. by apply elem_of_remove_dups.
Qed.

Lemma elem_of_todelete maxcite df p :
  p ∈ todelete maxcite df ↔
  p ∈ pubid <$> df ∧ (maxcite < Z.of_nat (pub_rows df p))%Z.
Proof.
  unfold todelete, pub_rows. rewrite list_elem_of_fmap. split.
  - intros ([p' g] & -> & [Hlen Hin%elem_of_groupby_pubid]%list_elem_of_filter).
    simpl in *. destruct Hin as [Hp ->]. done.
  - intros [Hp Hlen]. exists (p, filter (λ r, pubid r = p) df). split; [done|].
    apply list_elem_of_filter. split; [done|]. by apply elem_of_groupby_pubid.
Qed.

Lemma getGeneRefs_filter loaded maxcite :
  getGeneRefs loaded maxcite
  = filter (λ r, (Z.of_nat (pub_rows loaded (pubid r)) ≤ maxcite)%Z) loaded.
Proof.
  unfold getGeneRefs. rewrite foldl_drop_pub.
  apply filter_ext_in. intros r Hr.
  rewrite elem_of_todelete. split.
  - intros Hn. destruct (decide (Z.of_nat (pub_rows loaded (pubid r)) ≤ maxcite)%Z);
      [done|]. exfalso. apply Hn. split; [|lia].
    apply list_elem_of_fmap. eauto.
  - intros Hle [_ Hlt]. lia.
Qed.

Lemma filter_none {A} (P : A → Prop) `{!∀ x, Decision (P x)} (l : list A) :
  (∀ x, x ∈ l → ¬ P x) → filter P l = [].
Proof.
  induction l as [|a l IH]; intros Hl; [done|].
  rewrite filter_cons, decide_False by (apply Hl; by left).
  apply IH. intros; apply Hl; by right.
Qed.

Lemma getGeneRefs_pub loaded maxcite p :
  filter (λ r, pubid r = p) (getGeneRefs loaded maxcite)
  = if decide (Z.of_nat (pub_rows loaded p) ≤ maxcite)%Z
    then filter (λ r, pubid r = p) loaded else [].
Proof.
  rewrite getGeneRefs_filter, list_filter_filter. case_decide as Hp.
  - apply filter_ext_in. intros r _. split; [by intros [? _]|].
    intros Hr. split; [done|]. by rewrite Hr.
  - apply filter_none. intros r _ [Hr Hle]. by rewrite Hr in Hle.
Qed.

(** X5. [getGeneRefs] keeps, in their order, exactly the rows of the
    publications that have at most [maxcite] rows in the loaded frame (rows
    are counted, not distinct genes; the bound itself is kept).  A
    publication is kept whole or dropped whole, and a bound below 1 drops
    every row. *)
Theorem getGeneRefs_keeps_small_publications loaded maxcite :
  getGeneRefs loaded maxcite
  = filter (λ r, (Z.of_nat (pub_rows loaded (pubid r)) ≤ maxcite)%Z) loaded ∧
  (∀ p, filter (λ r, pubid r = p) (getGeneRefs loaded maxcite)
        = if decide (Z.of_nat (pub_rows loaded p) ≤ maxcite)%Z
          then filter (λ r, pubid r = p) loaded else []) ∧
  ((maxcite < 1)%Z → getGeneRefs loaded maxcite = []).
Proof.
  split_and!; [apply getGeneRefs_filter | apply getGeneRefs_pub |].
  intros Hm. rewrite getGeneRefs_filter. apply filter_none.
  intros r Hr Hle. assert (0 < pub_rows loaded (pubid r)); [|lia].
  unfold pub_rows. assert (r ∈ filter (λ r', pubid r' = pubid r) loaded) as Hin
    by (by apply list_elem_of_filter).
  destruct (filter _ loaded); [by apply elem_of_nil in Hin | simpl; lia].
Qed.

Lemma getGeneRefs_twice loaded maxcite :
  getGeneRefs (getGeneRefs loaded maxcite) maxcite = getGeneRefs loaded maxcite.
Proof.
  rewrite (getGeneRefs_filter (getGeneRefs loaded maxcite)).
  apply filter_all. intros r Hr. unfold pub_rows at 1.
  rewrite getGeneRefs_pub.
  rewrite getGeneRefs_filter in Hr. apply list_elem_of_filter in Hr as [Hle _].
  by rewrite decide_True.
Qed.

(** X6. Cleaning is idempotent: in the cleaned frame no publication has
    more than [maxcite] rows, and cleaning it again changes nothing. *)
Theorem getGeneRefs_idempotent loaded maxcite :
  getGeneRefs (getGeneRefs loaded maxcite) maxcite = getGeneRefs loaded maxcite ∧
  ∀ p, (Z.of_nat (pub_rows (getGeneRefs loaded maxcite) p) ≤ Z.max maxcite 0)%Z.
Proof.
  split; [apply getGeneRefs_twice|].
  intros p. unfold pub_rows at 1. rewrite getGeneRefs_pub.
  case_decide; simpl; [unfold pub_rows in *|]; lia.
Qed.

(** X7. A publication with more than [maxcite] rows contributes to no
    entry of the similarity matrix built from the cleaned frame: the
    publication set of a gene loses exactly those publications, and a gene
    has a row in the matrix exactly when one of its publications is kept. *)
Theorem getGeneRefs_then_pubs_of loaded maxcite g :
  (∀ p, p ∈ pubs_of (getGeneRefs loaded maxcite) g ↔
        p ∈ pubs_of loaded g ∧ (Z.of_nat (pub_rows loaded p) ≤ maxcite)%Z) ∧
  (g ∈ unique (symb <$> getGeneRefs loaded maxcite) ↔
   ∃ p, p ∈ pubs_of loaded g ∧ (Z.of_nat (pub_rows loaded p) ≤ maxcite)%Z).
Proof.
  assert (Hrow : ∀ r, r ∈ getGeneRefs loaded maxcite ↔
            r ∈ loaded ∧ (Z.of_nat (pub_rows loaded (pubid r)) ≤ maxcite)%Z).
  { intros r. rewrite getGeneRefs_filter, list_elem_of_filter. tauto. }
  assert (Hpubs : ∀ df p, p ∈ pubs_of df g ↔ ∃ r, r ∈ df ∧ symb r = g ∧ pubid r = p).
  { intros df p. unfold pubs_of. rewrite elem_of_list_to_set, list_elem_of_fmap.
    split.
    - intros (r & -> & [? ?]%list_elem_of_filter). eauto.
    - intros (r & ? & ? & <-). exists r. split; [done|].
      by apply list_elem_of_filter. }
  split.
  - intros p. rewrite !Hpubs. split.
    + intros (r & [Hr Hle]%Hrow & Hg & <-). eauto.
    + intros [(r & Hr & Hg & <-) Hle]. exists r. split_and!; [|done|done].
      by apply Hrow.
  - rewrite elem_of_unique, list_elem_of_fmap. split.
    + intros (r & -> & [Hr Hle]%Hrow). exists (pubid r). split; [|done].
      apply Hpubs. eauto.
    + intros (p & (r & Hr & <- & <-)%Hpubs & Hle). exists r. split; [done|].
      by apply Hrow.
Qed.

(** ** Naming a cluster that has a connected member *)

(** X8. When some node of cluster [i] has a positive degree, [topind] is
    the first node of cluster [i] whose degree is the largest of the
    cluster; the members of the cluster take its gene symbol when it is
    selected and ['none'] when it is not, every other label is left as it
    is, and a [names] too short for [topind] raises [IndexError]. *)
Theorem cluster_named_after_first_top_member N topnodes names yarr y
    (i : nat) j0 d0 :
  length N = length yarr →
  yarr !! j0 = Some (Z.of_nat i) → N !! j0 = Some d0 → (0 < d0)%Z →
  ∃ topind d,
    yarr !! topind = Some (Z.of_nat i) ∧ N !! topind = Some d ∧
    (∀ j dj, yarr !! j = Some (Z.of_nat i) → N !! j = Some dj → (dj ≤ d)%Z) ∧
    (∀ j dj, j < topind → yarr !! j = Some (Z.of_nat i) → N !! j = Some dj →
             (dj < d)%Z) ∧
    name_cluster N topnodes names yarr y i
    = match topnodes !! topind, names !! topind with
      | None, _ => Raise IndexError
      | Some true, None => Raise IndexError
      | Some true, Some nm =>
          Ok ((λ l, if decide (l = Raw (Z.of_nat i)) then Sym nm else l) <$> y)
      | Some false, _ =>
          Ok ((λ l, if decide (l = Raw (Z.of_nat i)) then none else l) <$> y)
      end.
Proof.
  intros Hlen Hj0 Hd0 Hpos.
  pose proof (masked_degrees_lookup N yarr (Z.of_nat i) j0 d0 _ Hd0 Hj0) as Hm0.
  rewrite decide_True in Hm0 by done.
  destruct (argmax_spec (masked_degrees N yarr (Z.of_nat i)))
    as (t & v & Et & Hv & Hmax & Hfirst).
  { intros Hnil. by rewrite Hnil in Hm0. }
  assert (0 < v)%Z as Hvpos by (specialize (Hmax _ _ Hm0); lia).
  assert (t < length (masked_degrees N yarr (Z.of_nat i))) as Ht
    by (by eapply lookup_lt_Some).
  unfold masked_degrees in Ht. rewrite length_zip_with in Ht.
  destruct (lookup_lt_is_Some_2 N t) as [d Hd]; [lia|].
  destruct (lookup_lt_is_Some_2 yarr t) as [c Hc]; [lia|].
  rewrite (masked_degrees_lookup _ _ _ _ _ _ Hd Hc) in Hv.
  injection Hv as Hv. case_decide as Hci; [subst c | lia].
  exists t, d. split_and!; [done | done | | |].
  - intros j dj Hj Hdj.
    pose proof (masked_degrees_lookup N yarr (Z.of_nat i) j dj _ Hdj Hj) as Hmj.
    rewrite decide_True in Hmj by done. specialize (Hmax _ _ Hmj). lia.
  - intros j dj Hlt Hj Hdj.
    pose proof (masked_degrees_lookup N yarr (Z.of_nat i) j dj _ Hdj Hj) as Hmj.
    rewrite decide_True in Hmj by done. specialize (Hfirst _ _ Hlt Hmj). lia.
  - unfold name_cluster, getitem, rename. rewrite Et. simpl.
    destruct (topnodes !! t) as [[|]|]; simpl; [|done|done].
    by destruct (names !! t).
Qed.

Lemma cluster_named_after_first_top_member_witness :
  ∃ topind d,
    [0; 1; 1; 0]%Z !! topind = Some 1%Z ∧ [5; 2; 2; 1]%Z !! topind = Some d ∧
    (∀ j dj, [0; 1; 1; 0]%Z !! j = Some (Z.of_nat 1) →
             [5; 2; 2; 1]%Z !! j = Some dj → (dj ≤ d)%Z) ∧
    (∀ j dj, j < topind → [0; 1; 1; 0]%Z !! j = Some (Z.of_nat 1) →
             [5; 2; 2; 1]%Z !! j = Some dj → (dj < d)%Z) ∧
    name_cluster [5; 2; 2; 1]%Z [false; true; true; true]
      ["g0"; "g1"; "g2"; "g3"] [0; 1; 1; 0]%Z (Raw <$> [0; 1; 1; 0]%Z) 1
    = match [false; true; true; true] !! topind,
            ["g0"; "g1"; "g2"; "g3"] !! topind with
      | None, _ => Raise IndexError
      | Some true, None => Raise IndexError
      | Some true, Some nm =>
          Ok ((λ l, if decide (l = Raw (Z.of_nat 1)) then Sym nm else l)
                <$> (Raw <$> [0; 1; 1; 0]%Z))
      | Some false, _ =>
          Ok ((λ l, if decide (l = Raw (Z.of_nat 1)) then none else l)
                <$> (Raw <$> [0; 1; 1; 0]%Z))
      end.
Proof.
  apply (cluster_named_after_first_top_member [5; 2; 2; 1]%Z
           [false; true; true; true] ["g0"; "g1"; "g2"; "g3"] [0; 1; 1; 0]%Z
           (Raw <$> [0; 1; 1; 0]%Z) 1 1 2%Z); reflexivity.
Defined.

(** ** The node-edge dictionary *)

Lemma list_index_elem_of x l :
  x ∈ l → ∃ idx, list_index x l = Ok idx ∧ idx < length l.
Proof.
  induction l as [|a l IH]; [by intros ?%elem_of_nil|].
  intros Hx. simpl. case_decide as Ha.
  - exists 0. split; [done | simpl; lia].
  - apply elem_of_cons in Hx as [->|Hx]; [done|].
    destruct (IH Hx) as (idx & -> & Hlt). exists (S idx). split; [done | simpl; lia].
Qed.

Lemma occurrences_cons g a gl :
  occurrences g (a :: gl)
  = (if decide (a = g) then 1 else 0) + occurrences g gl.
Proof. unfold occurrences. rewrite filter_cons. by case_decide. Qed.

Lemma occurrences_app g l1 l2 :
  occurrences g (l1 ++ l2) = occurrences g l1 + occurrences g l2.
Proof. unfold occurrences. by rewrite filter_app, length_app. Qed.

Lemma occurrences_zero g gl : occurrences g gl = 0 ↔ g ∉ gl.
Proof.
  induction gl as [|a gl IH]; [split; [intros _; apply not_elem_of_nil | done]|].
  rewrite occurrences_cons, not_elem_of_cons. case_decide as Ha.
  - split; [lia | intros [Hne _]; congruence].
  - rewrite <- IH. split; [intros; split; [congruence | lia] | intros [_ ?]; lia].
Qed.

Lemma occurrences_others g i gl :
  occurrences g (others i gl)
  = occurrences g gl - (if decide (g = i ∧ i ∈ gl) then 1 else 0).
Proof.
  unfold others. induction gl as [|a gl IH]; simpl.
  - rewrite decide_False by (by intros [_ ?%elem_of_nil]). by unfold occurrences.
  - destruct (decide (a = i)) as [->|Ha].
    + simpl. rewrite occurrences_cons.
      destruct (decide (g = i)) as [->|Hg].
      * rewrite decide_True by done. rewrite decide_True by (split; [done | by left]).
        lia.
      * rewrite decide_False by congruence. rewrite decide_False by tauto. lia.
    + destruct (list_index i gl) as [idx|] eqn:E; simpl.
      * rewrite !occurrences_cons, IH.
        assert (i ∈ a :: gl ↔ i ∈ gl) as Hiff
          by (rewrite elem_of_cons; naive_solver).
        destruct (decide (g = i ∧ i ∈ gl)) as [[-> Hin]|Hn].
        -- rewrite (decide_False (P := a = i)) by done.
           rewrite decide_True by tauto.
           assert (occurrences i gl ≠ 0) by (rewrite occurrences_zero; tauto).
           lia.
        -- rewrite (decide_False (P := g = i ∧ i ∈ a :: gl)) by tauto. lia.
      * assert (i ∉ gl) as Hnin.
        { intros Hin. destruct (list_index_elem_of _ _ Hin) as (? & ? & _).
          congruence. }
        rewrite decide_False; [lia|]. rewrite elem_of_cons. naive_solver.
Qed.

Lemma add_neighbours_Ok gl d i cur :
  i ∈ gl → d !! i = Some cur →
  add_neighbours gl d i = Ok (<[i := cur ++ [others i gl]]> d).
Proof.
  intros Hi Hd. unfold add_neighbours, others.
  destruct (list_index_elem_of _ _ Hi) as (idx & -> & Hlt). simpl.
  unfold list_pop. rewrite decide_True by done. simpl.
  unfold dict_get. by rewrite Hd.
Qed.

(** The loop [for i in gl] on the rows [gl'] still to come. *)
Lemma inner_neighbours gl gl' d :
  (∀ i, i ∈ gl' → i ∈ gl ∧ is_Some (d !! i)) →
  ∃ d', for_each (add_neighbours gl) d gl' = Ok d' ∧
    ∀ g, d' !! g
         = (λ cur, cur ++ replicate (occurrences g gl') (others g gl))
             <$> d !! g.
Proof.
  revert d. induction gl' as [|i gl' IH]; intros d Hd.
  - exists d. split; [done|]. intros g. simpl.
    destruct (d !! g); simpl; [|done]. by rewrite app_nil_r.
  - destruct (Hd i ltac:(by left)) as [Hi [cur Hcur]].
    destruct (IH (<[i := cur ++ [others i gl]]> d)) as (d' & E' & Hd').
    { intros i' Hi'. destruct (Hd i' ltac:(by right)) as [? ?].
      split; [done|]. by apply lookup_insert_is_Some'; right. }
    exists d'. simpl. rewrite (add_neighbours_Ok _ _ _ _ Hi Hcur). simpl.
    split; [done|]. intros g. rewrite Hd', occurrences_cons.
    destruct (decide (i = g)) as [->|Hne].
    + rewrite lookup_insert_eq, Hcur. simpl. by rewrite <- app_assoc.
    + by rewrite lookup_insert_ne.
Qed.

Lemma outer_neighbours (gs : list (Z * dataframe)) d :
  (∀ pg i, pg ∈ gs → i ∈ symb <$> pg.2 → is_Some (d !! i)) →
  ∃ d', for_each (λ d pg, let gl := symb <$> pg.2 in
                          for_each (add_neighbours gl) d gl) d gs = Ok d' ∧
    ∀ g, d' !! g
         = (λ cur, cur ++ concat ((λ pg,
                replicate (occurrences g (symb <$> pg.2))
                          (others g (symb <$> pg.2))) <$> gs))
             <$> d !! g.
Proof.
  revert d. induction gs as [|pg gs IH]; intros d Hd.
  - exists d. split; [done|]. intros g. simpl.
    destruct (d !! g); simpl; [|done]. by rewrite app_nil_r.
  - destruct (inner_neighbours (symb <$> pg.2) (symb <$> pg.2) d)
      as (d1 & E1 & Hd1).
    { intros i Hi. split; [done|]. eapply Hd; [by left | done]. }
    destruct (IH d1) as (d' & E' & Hd').
    { intros pg' i Hpg' Hi. rewrite Hd1. apply fmap_is_Some.
      eapply Hd; [by right | done]. }
    exists d'. simpl. rewrite E1. simpl. split; [done|].
    intros g. rewrite Hd', Hd1. destruct (d !! g); simpl; [|done].
    by rewrite <- app_assoc.
Qed.

Lemma foldl_insert_keys {V} (f : string → V) ks (m0 : gmap string V) h :
  foldl (λ m i, <[i := f i]> m) m0 ks !! h
  = if decide (h ∈ ks) then Some (f h) else m0 !! h.
Proof.
  revert m0. induction ks as [|k ks IH]; intros m0; simpl.
  - reflexivity.
  - rewrite IH. destruct (decide (h ∈ ks)) as [Hin|Hnin].
    + rewrite decide_True; [done | by right].
    + destruct (decide (h = k)) as [->|Hne].
      * rewrite decide_True by (by left). by rewrite lookup_insert_eq.
      * rewrite decide_False by (rewrite elem_of_cons; naive_solver).
        by rewrite lookup_insert_ne.
Qed.

Lemma tally_lookup gl h :
  tally gl !! h = edge (occurrences h (concat gl)).
Proof.
  unfold tally, edge. rewrite foldl_insert_keys, lookup_empty.
  fold (occurrences h (concat gl)).
  destruct (decide (occurrences h (concat gl) = 0)) as [H0|Hn].
  - rewrite decide_False; [done|]. rewrite elem_of_remove_dups.
    by apply occurrences_zero.
  - rewrite decide_True; [done|]. rewrite elem_of_remove_dups.
    destruct (decide (h ∈ concat gl)) as [|Hnin]; [done|].
    by apply occurrences_zero in Hnin.
Qed.

Lemma occurrences_concat_replicate h n (o : list string) :
  occurrences h (concat (replicate n o)) = n * occurrences h o.
Proof.
  induction n as [|n IH]; simpl; [done|]. rewrite occurrences_app, IH. lia.
Qed.

Lemma occurrences_groups {G} h (n : G → nat) (o : G → list string) gs :
  occurrences h (concat (concat ((λ pg, replicate (n pg) (o pg)) <$> gs)))
  = sum_list ((λ pg, n pg * occurrences h (o pg)) <$> gs).
Proof.
  induction gs as [|pg gs IH]; [done|]. csimpl.
  by rewrite concat_app, occurrences_app, occurrences_concat_replicate, IH.
Qed.

Lemma sum_list_fmap_ext {G} (f1 f2 : G → nat) gs :
  (∀ x, x ∈ gs → f1 x = f2 x) → sum_list (f1 <$> gs) = sum_list (f2 <$> gs).
Proof.
  induction gs as [|x gs IH]; intros H; [done|]. csimpl.
  rewrite (H x) by (by left). rewrite IH; [done|]. intros; apply H; by right.
Qed.

Lemma neighbour_lists_lookup df :
  ∃ d, neighbour_lists df = Ok d ∧
    ∀ g, d !! g
         = if decide (g ∈ symb <$> df)
           then Some (concat ((λ pg,
                  replicate (occurrences g (symb <$> pg.2))
                            (others g (symb <$> pg.2))) <$> groupby_pubid df))
           else None.
Proof.
  unfold neighbour_lists.
  set (init := foldl (λ d g, <[g := []]> d) ∅ (unique (symb <$> df))).
  assert (Hinit : ∀ g, init !! g
            = if decide (g ∈ symb <$> df) then Some [] else None).
  { intros g. unfold init.
    rewrite (foldl_insert_keys (λ _, []) (unique (symb <$> df)) ∅ g), lookup_empty.
    destruct (decide (g ∈ symb <$> df)) as [Hg|Hg].
    - rewrite decide_True; [done | by apply elem_of_unique].
    - rewrite decide_False; [done | by rewrite elem_of_unique]. }
  destruct (outer_neighbours (groupby_pubid df) init) as (d & E & Hd).
  { intros pg i [_ Hpg]%elem_of_groupby_pubid Hi. rewrite Hinit.
    rewrite decide_True; [done|]. rewrite Hpg in Hi.
    apply list_elem_of_fmap in Hi as (r & -> & [_ Hr]%list_elem_of_filter).
    apply list_elem_of_fmap. eauto. }
  exists d. split; [done|]. intros g. rewrite Hd, Hinit. by case_decide.
Qed.

(** Every stored weight, by the counts of the rows. *)
Lemma getnedict_lookup df :
  ∃ d, getnedict df = Ok d ∧
    (∀ g, is_Some (d !! g) ↔ g ∈ symb <$> df) ∧
    ∀ g m h, d !! g = Some m →
      m !! h = edge (sum_list ((λ pg,
                 occurrences g (symb <$> pg.2)
                 * occurrences h (others g (symb <$> pg.2)))
               <$> groupby_pubid df)).
Proof.
  destruct (neighbour_lists_lookup df) as (d & E & Hd).
  exists (tally <$> d). unfold getnedict. rewrite E. split_and!; [done | |].
  - intros g. rewrite lookup_fmap, fmap_is_Some, Hd. case_decide; [|split; [by intros [? ?] | done]].
    split; [done | by eauto].
  - intros g m h. rewrite lookup_fmap, Hd. case_decide; simpl; [|done].
    intros [= <-]. by rewrite tally_lookup, occurrences_groups.
Qed.

Lemma occurrences_le_elem g gl : g ∉ gl → occurrences g gl = 0.
Proof. apply occurrences_zero. Qed.

Lemma getnedict_cross_weight df g h :
  g ≠ h →
  sum_list ((λ pg, occurrences g (symb <$> pg.2)
                   * occurrences h (others g (symb <$> pg.2)))
              <$> groupby_pubid df)
  = cocitations df g h.
Proof.
  intros Hne. unfold cocitations. apply sum_list_fmap_ext. intros pg _.
  rewrite occurrences_others, decide_False by naive_solver. by rewrite Nat.sub_0_r.
Qed.

Lemma getnedict_self_weight df g :
  sum_list ((λ pg, occurrences g (symb <$> pg.2)
                   * occurrences g (others g (symb <$> pg.2)))
              <$> groupby_pubid df)
  = self_citations df g.
Proof.
  unfold self_citations. apply sum_list_fmap_ext. intros pg _.
  rewrite occurrences_others. case_decide as Hin; [done|].
  assert (g ∉ symb <$> pg.2) as Hnin by tauto.
  by rewrite (occurrences_le_elem _ _ Hnin).
Qed.

Lemma cocitations_comm df g h : cocitations df g h = cocitations df h g.
Proof.
  unfold cocitations. apply sum_list_fmap_ext. intros pg _. apply Nat.mul_comm.
Qed.

(** X9. [getnedict] raises on no table.  Its keys are the genes of the
    table; under gene [g] another gene [h] is stored with the weight
    [cocitations df g h], the number of pairs of a row of [g] and a row of
    [h] in one publication, and is absent when that number is 0; [g] itself
    is stored under [g] exactly when some publication lists it twice. *)
Theorem getnedict_weights df :
  ∃ d, getnedict df = Ok d ∧
    (∀ g, is_Some (d !! g) ↔ g ∈ symb <$> df) ∧
    (∀ g h m, d !! g = Some m → g ≠ h →
       m !! h = edge (cocitations df g h)) ∧
    (∀ g m, d !! g = Some m → m !! g = edge (self_citations df g)).
Proof.
  destruct (getnedict_lookup df) as (d & E & Hdom & Hw).
  exists d. split_and!; [done | done | |].
  - intros g h m Hm Hne. by rewrite (Hw _ _ _ Hm), getnedict_cross_weight.
  - intros g m Hm. by rewrite (Hw _ _ _ Hm), getnedict_self_weight.
Qed.

(** X10. The dictionary is symmetric: whenever [g] and [h] are genes of
    the table, [h] is stored under [g] with the weight with which [g] is
    stored under [h], or neither is stored. *)
Theorem getnedict_symmetric df d g h mg mh :
  getnedict df = Ok d → d !! g = Some mg → d !! h = Some mh →
  mg !! h = mh !! g.
Proof.
  intros E Hg Hh. destruct (getnedict_lookup df) as (d' & E' & _ & Hw).
  rewrite E in E'. injection E' as <-.
  destruct (decide (g = h)) as [->|Hne]; [congruence|].
  rewrite (Hw _ _ _ Hg), (Hw _ _ _ Hh), !getnedict_cross_weight by done.
  by rewrite cocitations_comm.
Qed.

Lemma getnedict_scenario :
  getnedict df_scenario
  = Ok {[ "g1" := {[ "g2" := {["weight" := 1]}; "g3" := {["weight" := 1]} ]};
          "g2" := {[ "g1" := {["weight" := 1]} ]};
          "g3" := {[ "g1" := {["weight" := 1]} ]} ]}.
Proof. vm_compute. reflexivity. Qed.

Lemma getnedict_symmetric_witness :
  ({[ "g2" := {["weight" := 1]}; "g3" := {["weight" := 1]} ]}
     : gmap string (gmap string nat)) !! "g2"
  = ({[ "g1" := {["weight" := 1]} ]} : gmap string (gmap string nat)) !! "g1".
Proof.
  apply (getnedict_symmetric df_scenario _ "g1" "g2" _ _ getnedict_scenario);
    reflexivity.
Defined.

Lemma occurrences_rows df g p :
  occurrences g (symb <$> filter (λ r, pubid r = p) df)
  = length (filter (λ r, r = Assoc g p) df).
Proof.
  induction df as [|[s q] df IH]; [done|].
  rewrite !filter_cons. simpl.
  destruct (decide (q = p)) as [->|Hq].
  - csimpl. rewrite occurrences_cons, IH.
    destruct (decide (s = g)) as [->|Hs].
    + by rewrite decide_True.
    + rewrite decide_False by congruence. done.
  - rewrite IH. rewrite decide_False by congruence. done.
Qed.

Lemma NoDup_count {A} `{EqDecision A} (l : list A) x :
  NoDup l → length (filter (λ r, r = x) l) = if decide (x ∈ l) then 1 else 0.
Proof.
  induction 1 as [|a l Ha Hl IH]; [done|].
  rewrite filter_cons. destruct (decide (a = x)) as [->|Hne]; simpl; rewrite IH.
  - rewrite decide_False by done. rewrite decide_True by (by left). done.
  - destruct (decide (x ∈ l)).
    + rewrite decide_True by (by right). done.
    + rewrite decide_False; [done|]. rewrite elem_of_cons. naive_solver.
Qed.

Lemma elem_of_pubs_of df g p : p ∈ pubs_of df g ↔ Assoc g p ∈ df.
Proof.
  unfold pubs_of. rewrite elem_of_list_to_set, list_elem_of_fmap. split.
  - intros ([s q] & -> & [Hs Hr]%list_elem_of_filter). simpl in *. by subst.
  - intros Hr. exists (Assoc g p). split; [done|]. by apply list_elem_of_filter.
Qed.

Lemma sum_indicator (S : gset Z) (ps : list Z) :
  NoDup ps → (∀ x, x ∈ S → x ∈ ps) →
  sum_list ((λ p, if decide (p ∈ S) then 1 else 0) <$> ps) = size S.
Proof.
  intros Hnd Hsub.
  assert (sum_list ((λ p, if decide (p ∈ S) then 1 else 0) <$> ps)
          = length (filter (λ p, p ∈ S) ps)) as ->.
  { clear. induction ps as [|p ps IH]; [done|]. csimpl.
    rewrite filter_cons, IH. by case_decide. }
  assert (list_to_set (filter (λ p, p ∈ S) ps) = S) as HS.
  { apply set_eq. intros x. rewrite elem_of_list_to_set, list_elem_of_filter.
    naive_solver. }
  rewrite <- (size_list_to_set (C := gset Z) (filter (λ p, p ∈ S) ps))
    by (by apply NoDup_filter).
  by rewrite HS.
Qed.

Lemma cocitations_NoDup df g h :
  NoDup df → cocitations df g h = size (pubs_of df g ∩ pubs_of df h).
Proof.
  intros Hnd. unfold cocitations, groupby_pubid.
  rewrite <- list_fmap_compose.
  rewrite <- (sum_indicator (pubs_of df g ∩ pubs_of df h)
                (merge_sort Z.le (remove_dups (pubid <$> df)))).
  - apply sum_list_fmap_ext. intros p _. simpl.
    rewrite !occurrences_rows, !NoDup_count by done.
    pose proof (elem_of_pubs_of df g p). pose proof (elem_of_pubs_of df h p).
    pose proof (elem_of_intersection (pubs_of df g) (pubs_of df h) p).
    repeat case_decide; try done; tauto.
  - rewrite merge_sort_Permutation. apply NoDup_remove_dups.
  - intros p [Hp _]%elem_of_intersection. rewrite merge_sort_Permutation.
    apply elem_of_remove_dups. apply elem_of_pubs_of in Hp.
    apply list_elem_of_fmap. by exists (Assoc g p).
Qed.

Lemma self_citations_NoDup df g : NoDup df → self_citations df g = 0.
Proof.
  intros Hnd. unfold self_citations, groupby_pubid.
  rewrite <- list_fmap_compose.
  induction (merge_sort Z.le (remove_dups (pubid <$> df))) as [|p ps IH];
    [done|]. csimpl. rewrite IH.
  rewrite !occurrences_rows, !NoDup_count by done. case_decide; lia.
Qed.

(** X11. On a table without repeated rows the weight stored for two
    different genes is the number of publications they share, the
    numerator of their entry in the similarity matrix, and no gene is
    stored under itself. *)
Theorem getnedict_counts_shared_publications df d g m :
  NoDup df → getnedict df = Ok d → d !! g = Some m →
  m !! g = None ∧
  ∀ h, g ≠ h → m !! h = edge (size (pubs_of df g ∩ pubs_of df h)).
Proof.
  intros Hnd E Hm. destruct (getnedict_lookup df) as (d' & E' & _ & Hw).
  rewrite E in E'. injection E' as <-. split.
  - by rewrite (Hw _ _ _ Hm), getnedict_self_weight, self_citations_NoDup.
  - intros h Hne.
    by rewrite (Hw _ _ _ Hm), getnedict_cross_weight, cocitations_NoDup.
Qed.

Lemma getnedict_counts_shared_publications_witness :
  ({[ "g2" := {["weight" := 1]}; "g3" := {["weight" := 1]} ]}
     : gmap string (gmap string nat)) !! "g1" = None ∧
  ∀ h, "g1" ≠ h →
    ({[ "g2" := {["weight" := 1]}; "g3" := {["weight" := 1]} ]}
       : gmap string (gmap string nat)) !! h
    = edge (size (pubs_of df_scenario "g1" ∩ pubs_of df_scenario h)).
Proof.
  refine (getnedict_counts_shared_publications df_scenario _ "g1" _ _
            getnedict_scenario _); [|reflexivity].
  apply (bool_decide_unpack _). vm_compute. exact I.
Defined.

(** ** Labelling the graph *)

Lemma set_attr_Ok G n key v attrs :
  node G !! n = Some attrs →
  set_attr G n key v = Ok (Graph (nodes G) (<[n := <[key := v]> attrs]> (node G))).
Proof. intros H. unfold set_attr, node_get. by rewrite H. Qed.

Lemma label_step_Ok y title G c n yc attrs :
  y !! c = Some yc → node G !! n = Some attrs →
  label_step y title (G, c) n
  = Ok (Graph (nodes G) (<[n := <[title := yc]> attrs]> (node G)), S c).
Proof.
  intros Hy Hn. unfold label_step. simpl. rewrite (getitem_Some _ _ _ Hy). simpl.
  by rewrite (set_attr_Ok _ _ _ _ _ Hn).
Qed.

(** The loop of [addGraphLabels] on the nodes [rest] still to come, the
    counter at [c]. *)
Lemma label_loop y title rest G c :
  NoDup rest → (∀ n, n ∈ rest → is_Some (node G !! n)) →
  c + length rest ≤ length y →
  ∃ G', for_each (label_step y title) (G, c) rest = Ok (G', c + length rest) ∧
    nodes G' = nodes G ∧
    (∀ n, n ∉ rest → node G' !! n = node G !! n) ∧
    (∀ i n, rest !! i = Some n →
       ∃ attrs yc, node G !! n = Some attrs ∧ y !! (c + i) = Some yc ∧
                   node G' !! n = Some (<[title := yc]> attrs)).
Proof.
  revert G c. induction rest as [|n rest IH]; intros G c Hnd Hattrs Hlen.
  - exists G. simpl. rewrite Nat.add_0_r. split_and!; done.
  - apply NoDup_cons in Hnd as [Hn Hnd]. simpl in Hlen.
    destruct (lookup_lt_is_Some_2 y c) as [yc Hyc]; [lia|].
    destruct (Hattrs n ltac:(by left)) as [attrs Hn_attrs].
    set (G1 := Graph (nodes G) (<[n := <[title := yc]> attrs]> (node G))).
    destruct (IH G1 (S c) Hnd) as (G' & E' & Hnodes & Hframe & Hset).
    { intros n' Hn'. simpl. apply lookup_insert_is_Some'. right.
      apply Hattrs. by right. }
    { lia. }
    exists G'. split_and!.
    + simpl. rewrite (label_step_Ok _ _ _ _ _ _ _ Hyc Hn_attrs). simpl.
      fold G1. rewrite E'. f_equal. f_equal. lia.
    + done.
    + intros n' Hn'%not_elem_of_cons. destruct Hn' as [Hne Hn'].
      rewrite (Hframe n' Hn'). simpl. by rewrite lookup_insert_ne.
    + intros [|i] n' Hi; simpl in Hi.
      * injection Hi as <-. exists attrs, yc. rewrite Nat.add_0_r.
        split_and!; [done | done |]. rewrite (Hframe n Hn). simpl.
        by rewrite lookup_insert_eq.
      * destruct (Hset i n' Hi) as (attrs' & yc' & Hn' & Hy' & Hg').
        exists attrs', yc'. replace (c + S i) with (S c + i) by lia.
        split_and!; [|done|done].
        simpl in Hn'. rewrite lookup_insert_ne in Hn'; [done|].
        intros ->. apply Hn. by eapply list_elem_of_lookup_2.
Qed.

Lemma label_loop_short y title rest G c :
  (∀ n, n ∈ rest → is_Some (node G !! n)) →
  c ≤ length y → length y < c + length rest →
  for_each (label_step y title) (G, c) rest = Raise IndexError.
Proof.
  revert G c. induction rest as [|n rest IH]; intros G c Hattrs Hc Hlen;
    [simpl in Hlen; lia|].
  simpl.
  destruct (decide (c = length y)) as [->|Hne].
  - unfold label_step. simpl. rewrite getitem_None; [done|].
    by apply lookup_ge_None.
  - destruct (lookup_lt_is_Some_2 y c) as [yc Hyc]; [lia|].
    destruct (Hattrs n ltac:(by left)) as [attrs Hn_attrs].
    rewrite (label_step_Ok _ _ _ _ _ _ _ Hyc Hn_attrs). simpl.
    apply IH; [|lia|simpl in Hlen; lia].
    intros n' Hn'. simpl. apply lookup_insert_is_Some'. right.
    apply Hattrs. by right.
Qed.

Lemma addGraphLabels_by_position_aux G y labeltitle :
  graph_wf G → length (nodes G) ≤ length y →
  ∃ G', addGraphLabels G y labeltitle = Ok G' ∧
    nodes G' = nodes G ∧
    (∀ n, n ∉ nodes G → node G' !! n = node G !! n) ∧
    (∀ c n, nodes G !! c = Some n →
       ∃ attrs yc, node G !! n = Some attrs ∧ y !! c = Some yc ∧
                   node G' !! n = Some (<[labeltitle := yc]> attrs)).
Proof.
  intros [Hnd Hattrs] Hlen.
  destruct (label_loop y labeltitle (nodes G) G 0 Hnd Hattrs)
    as (G' & E & Hnodes & Hframe & Hset); [simpl; lia|].
  exists G'. unfold addGraphLabels. rewrite E. simpl. done.
Qed.

(** X12. On a graph with at most as many nodes as [y] has labels,
    [addGraphLabels] gives the node at position [c] of [G.nodes()] the label
    [y[c]] under the key [labeltitle], whatever the node's own number; it
    keeps the other attributes of the node, the node list and every other
    dictionary, and ignores the labels beyond the last node. *)
Theorem addGraphLabels_by_position G y labeltitle :
  graph_wf G → length (nodes G) ≤ length y →
  ∃ G', addGraphLabels G y labeltitle = Ok G' ∧
    nodes G' = nodes G ∧
    (∀ n, n ∉ nodes G → node G' !! n = node G !! n) ∧
    (∀ c n, nodes G !! c = Some n →
       ∃ attrs yc, node G !! n = Some attrs ∧ y !! c = Some yc ∧
                   node G' !! n = Some (<[labeltitle := yc]> attrs)) ∧
    addGraphLabels G (take (length (nodes G)) y) labeltitle = Ok G'.
Proof.
  intros [Hnd Hattrs] Hlen.
  destruct (label_loop y labeltitle (nodes G) G 0 Hnd Hattrs)
    as (G' & E & Hnodes & Hframe & Hset); [simpl; lia|].
  exists G'. unfold addGraphLabels. rewrite E. simpl.
  split_and!; [done | done | done | done |].
  destruct (label_loop (take (length (nodes G)) y) labeltitle (nodes G) G 0
              Hnd Hattrs) as (G2 & E2 & Hnodes2 & Hframe2 & Hset2).
  { rewrite length_take. simpl. lia. }
  rewrite E2. simpl. f_equal.
  destruct G' as [ns' nd'], G2 as [ns2 nd2]. simpl in *. subst ns' ns2.
  f_equal. apply map_eq. intros n.
  destruct (decide (n ∈ nodes G)) as [[c Hc]%list_elem_of_lookup|Hn].
  - destruct (Hset c n Hc) as (attrs & yc & Hn & Hy & ->).
    destruct (Hset2 c n Hc) as (attrs2 & yc2 & Hn2 & Hy2 & ->).
    simpl in Hy, Hy2. rewrite lookup_take_lt in Hy2
      by (by eapply lookup_lt_Some). congruence.
  - by rewrite Hframe, Hframe2.
Qed.

(** X13. With fewer labels than nodes [addGraphLabels] raises
    [IndexError]. *)
Theorem addGraphLabels_too_few_labels G y labeltitle :
  graph_wf G → length y < length (nodes G) →
  addGraphLabels G y labeltitle = Raise IndexError.
Proof.
  intros [_ Hattrs] Hlen. unfold addGraphLabels.
  rewrite label_loop_short; [done | done | lia | simpl; lia].
Qed.

Lemma sample_graph_wf : graph_wf sample_graph.
Proof.
  split.
  - apply (bool_decide_unpack _). by vm_compute.
  - intros n Hn. simpl in Hn.
    repeat (apply elem_of_cons in Hn as [->|Hn]; [by eexists|]).
    by apply elem_of_nil in Hn.
Qed.

Lemma addGraphLabels_by_position_witness :
  ∃ G', addGraphLabels sample_graph [Sym "A"; Sym "B"; Sym "C"] "cluster" = Ok G' ∧
    nodes G' = nodes sample_graph ∧
    (∀ n, n ∉ nodes sample_graph → node G' !! n = node sample_graph !! n) ∧
    (∀ c n, nodes sample_graph !! c = Some n →
       ∃ attrs yc, node sample_graph !! n = Some attrs ∧
                   [Sym "A"; Sym "B"; Sym "C"] !! c = Some yc ∧
                   node G' !! n = Some (<["cluster" := yc]> attrs)) ∧
    addGraphLabels sample_graph
      (take (length (nodes sample_graph)) [Sym "A"; Sym "B"; Sym "C"]) "cluster"
    = Ok G'.
Proof.
  apply (addGraphLabels_by_position sample_graph [Sym "A"; Sym "B"; Sym "C"]
           "cluster" sample_graph_wf). simpl. lia.
Defined.

Lemma addGraphLabels_too_few_labels_witness :
  addGraphLabels sample_graph [Sym "A"] "cluster" = Raise IndexError.
Proof.
  apply (addGraphLabels_too_few_labels sample_graph [Sym "A"] "cluster"
           sample_graph_wf). simpl. lia.
Defined.

Lemma gene_step_Ok (l : list string) G n nm attrs :
  l !! n = Some nm → node G !! n = Some attrs →
  gene_step l G n
  = Ok (Graph (nodes G) (<[n := <["label" := Sym nm]> attrs]> (node G))).
Proof.
  intros Hl Hn. unfold gene_step. rewrite (getitem_Some _ _ _ Hl). simpl.
  by rewrite (set_attr_Ok _ _ _ _ _ Hn).
Qed.

(** The loop of [makeNetwork_fromAdj] on the nodes [rest] still to come. *)
Lemma gene_loop (l : list string) rest G :
  NoDup rest → (∀ n, n ∈ rest → is_Some (node G !! n)) →
  (∀ n, n ∈ rest → n < length l) →
  ∃ G', for_each (gene_step l) G rest = Ok G' ∧
    nodes G' = nodes G ∧
    (∀ n, n ∉ rest → node G' !! n = node G !! n) ∧
    (∀ n, n ∈ rest →
       ∃ attrs nm, node G !! n = Some attrs ∧ l !! n = Some nm ∧
                   node G' !! n = Some (<["label" := Sym nm]> attrs)).
Proof.
  revert G. induction rest as [|n rest IH]; intros G Hnd Hattrs Hlt.
  - exists G. split_and!; [done | done | done |]. by intros n ?%elem_of_nil.
  - apply NoDup_cons in Hnd as [Hn Hnd].
    destruct (lookup_lt_is_Some_2 l n) as [nm Hnm]; [apply Hlt; by left|].
    destruct (Hattrs n ltac:(by left)) as [attrs Hn_attrs].
    set (G1 := Graph (nodes G) (<[n := <["label" := Sym nm]> attrs]> (node G))).
    destruct (IH G1 Hnd) as (G' & E' & Hnodes & Hframe & Hset).
    { intros n' Hn'. simpl. apply lookup_insert_is_Some'. right.
      apply Hattrs. by right. }
    { intros n' Hn'. apply Hlt. by right. }
    exists G'. split_and!.
    + simpl. rewrite (gene_step_Ok _ _ _ _ _ Hnm Hn_attrs). simpl. exact E'.
    + done.
    + intros n' Hn'%not_elem_of_cons. destruct Hn' as [Hne Hn'].
      rewrite (Hframe n' Hn'). simpl. by rewrite lookup_insert_ne.
    + intros n' [->|Hn']%elem_of_cons.
      * exists attrs, nm. split_and!; [done | done |].
        rewrite (Hframe n Hn). simpl. by rewrite lookup_insert_eq.
      * destruct (Hset n' Hn') as (attrs' & nm' & Hg1 & Hl' & Hg').
        exists attrs', nm'. split_and!; [|done|done].
        simpl in Hg1. rewrite lookup_insert_ne in Hg1; [done|].
        intros ->. done.
Qed.

(** X14. When the graph built from the matrix has the nodes [0 .. k-1] in
    that order, no more nodes than the table has genes and no more than [y]
    has labels, [makeNetwork_fromAdj] followed by [addGraphLabels] leaves
    node [n] with the symbol of gene [n] under ['label'] and with [y[n]]
    under [labeltitle]. *)
Theorem labelled_network from_numpy_matrix df Adj y labeltitle G0 k :
  from_numpy_matrix Adj = Ok G0 →
  nodes G0 = seq 0 k → (∀ n, n < k → is_Some (node G0 !! n)) →
  k ≤ length (unique (symb <$> df)) → k ≤ length y →
  ∃ G1 G, makeNetwork_fromAdj from_numpy_matrix df Adj = Ok G1 ∧
    addGraphLabels G1 y labeltitle = Ok G ∧
    nodes G = seq 0 k ∧
    ∀ n, n < k →
      ∃ attrs nm yn, node G0 !! n = Some attrs ∧
        unique (symb <$> df) !! n = Some nm ∧ y !! n = Some yn ∧
        node G !! n
        = Some (<[labeltitle := yn]> (<["label" := Sym nm]> attrs)).
Proof.
  intros E0 Hnodes Hattrs Hgenes Hy.
  destruct (gene_loop (unique (symb <$> df)) (nodes G0) G0)
    as (G1 & E1 & Hn1 & _ & Hset1).
  { rewrite Hnodes. apply NoDup_seq. }
  { intros n. rewrite Hnodes, elem_of_seq. intros ?. apply Hattrs. lia. }
  { intros n. rewrite Hnodes, elem_of_seq. lia. }
  assert (graph_wf G1) as Hwf.
  { split; [rewrite Hn1, Hnodes; apply NoDup_seq|].
    intros n Hn. rewrite Hn1 in Hn. destruct (Hset1 n Hn) as (? & ? & _ & _ & ->).
    done. }
  destruct (addGraphLabels_by_position_aux G1 y labeltitle Hwf)
    as (G & E & Hn & _ & Hset).
  { rewrite Hn1, Hnodes, length_seq. done. }
  exists G1, G. unfold makeNetwork_fromAdj. rewrite E0. simpl.
  split_and!; [done | done | congruence |].
  intros n Hlt.
  assert (nodes G1 !! n = Some n) as Hpos.
  { rewrite Hn1, Hnodes. by apply lookup_seq_lt. }
  destruct (Hset n n Hpos) as (attrs1 & yn & Hg1 & Hyn & HG).
  destruct (Hset1 n) as (attrs & nm & Hg0 & Hnm & Hg1').
  { rewrite Hnodes. apply elem_of_seq. lia. }
  exists attrs, nm, yn. split_and!; [done | done | done |]. congruence.
Qed.

Lemma labelled_network_witness :
  ∃ G1 G,
    makeNetwork_fromAdj sample_from_numpy_matrix df_scenario
      [[0; 1 # 2; 1 # 2]; [1 # 2; 0; 0]; [1 # 2; 0; 0]]%Q = Ok G1 ∧
    addGraphLabels G1 [Raw 0; Raw 1; Raw 0] "cluster" = Ok G ∧
    nodes G = seq 0 3 ∧
    ∀ n, n < 3 →
      ∃ attrs nm yn,
        node (Graph (seq 0 3) (list_to_map ((λ n, (n, ∅)) <$> seq 0 3))) !! n
          = Some attrs ∧
        unique (symb <$> df_scenario) !! n = Some nm ∧
        [Raw 0; Raw 1; Raw 0] !! n = Some yn ∧
        node G !! n = Some (<["cluster" := yn]> (<["label" := Sym nm]> attrs)).
Proof.
  apply (labelled_network sample_from_numpy_matrix df_scenario
           [[0; 1 # 2; 1 # 2]; [1 # 2; 0; 0]; [1 # 2; 0; 0]]%Q
           [Raw 0; Raw 1; Raw 0] "cluster"
           (Graph (seq 0 3) (list_to_map ((λ n, (n, ∅)) <$> seq 0 3))) 3);
    try reflexivity; try (simpl; lia).
  intros [|[|[|n]]] Hn; [by eexists | by eexists | by eexists | lia].
Defined.

(** ** Loading the local database *)

Lemma Qceiling_div (n b : Z) :
  Qceiling (inject_Z n / inject_Z b) = (- ((- n) / b))%Z.
Proof.
  unfold Qceiling. f_equal. rewrite Zdiv_Qdiv. apply Qfloor_comp.
  unfold Qdiv. rewrite inject_Z_opp. ring.
Qed.

Lemma nblocs_positive (n : nat) (b : Z) :
  (0 < b)%Z →
  ∃ k : nat, nblocs n b = Ok (Z.of_nat k) ∧
    (Z.of_nat n ≤ Z.of_nat k * b)%Z ∧
    (k ≠ 0 → (Z.of_nat (k - 1) * b < Z.of_nat n)%Z).
Proof.
  intros Hb. unfold nblocs. rewrite decide_False by lia. rewrite Qceiling_div.
  set (q := (- Z.of_nat n / b)%Z).
  assert (b * q ≤ - Z.of_nat n < b * q + b)%Z as Hq.
  { unfold q. pose proof (Z.mul_div_le (- Z.of_nat n) b Hb).
    pose proof (Z.mul_succ_div_gt (- Z.of_nat n) b Hb). lia. }
  assert (q ≤ 0)%Z as Hq0 by nia.
  exists (Z.to_nat (- q)). rewrite Z2Nat.id by lia.
  split_and!; [done | nia |]. intros Hk. rewrite Nat2Z.inj_sub by lia.
  rewrite Z2Nat.id by lia. nia.
Qed.

Lemma put_step_block vals (b : nat) blocks (j : nat) i :
  0 < b → j * b < length vals →
  put_step vals (Z.of_nat b) (blocks, Z.of_nat (j * b)) i
  = (blocks ++ [block vals b j], Z.of_nat (S j * b)).
Proof.
  intros Hb Hj. unfold put_step, block. simpl.
  replace (Z.of_nat (j * b) + Z.of_nat b)%Z with (Z.of_nat (b + j * b)) by lia.
  assert (slice_bound (length vals) (Z.of_nat (j * b)) = j * b) as Hlo.
  { unfold slice_bound. rewrite decide_False by lia. rewrite Nat2Z.id. lia. }
  case_decide as Hlast; f_equal; f_equal; f_equal.
  - unfold slice_from. rewrite Hlo. symmetry. apply take_ge.
    rewrite length_drop. lia.
  - unfold slice. rewrite Hlo. f_equal. unfold slice_bound.
    rewrite decide_False by lia. rewrite Nat2Z.id. lia.
Qed.

Lemma put_loop vals (b k : nat) :
  0 < b → (k ≠ 0 → (k - 1) * b < length vals) →
  foldl (put_step vals (Z.of_nat b)) ([], 0%Z) (seq 0 k)
  = (block vals b <$> seq 0 k, Z.of_nat (k * b)).
Proof.
  intros Hb. induction k as [|k IH]; intros Hk; [done|].
  rewrite seq_S, foldl_snoc, fmap_app. simpl.
  rewrite IH by (intros; specialize (Hk ltac:(lia)); nia).
  apply put_step_block; [done|]. specialize (Hk ltac:(lia)).
  by replace (S k - 1) with k in Hk by lia.
Qed.

Lemma concat_blocks {A} (l : list A) b k :
  concat (block l b <$> seq 0 k) = take (k * b) l.
Proof.
  induction k as [|k IH]; [done|].
  rewrite seq_S, fmap_app, concat_app, IH. simpl. rewrite app_nil_r.
  unfold block. rewrite take_take_drop. f_equal. lia.
Qed.

Lemma put_blocks_positive vals (b : nat) :
  0 < b →
  ∃ k, put_blocks vals (Z.of_nat b) = Ok (block vals b <$> seq 0 k) ∧
    length vals ≤ k * b ∧ (k ≠ 0 → (k - 1) * b < length vals).
Proof.
  intros Hb. unfold put_blocks.
  destruct (nblocs_positive (length vals) (Z.of_nat b)) as (k & -> & Hhi & Hlo);
    [lia|].
  exists k. simpl. rewrite Nat2Z.id. rewrite put_loop; [|done|].
  - split_and!; [done | nia |]. intros Hk. specialize (Hlo Hk). nia.
  - intros Hk. specialize (Hlo Hk). nia.
Qed.

Lemma length_block {A} (l : list A) b j :
  j * b < length l → 0 < b → 0 < length (block l b j) ≤ b.
Proof.
  intros Hj Hb. unfold block. rewrite length_take, length_drop. lia.
Qed.

(** X15. With a positive block size the rows are passed to [executemany]
    in consecutive blocks: the blocks put end to end are the rows of [vals]
    in their order, every block holds at least one row and at most [blocsz],
    and their number is the least [k] with [k * blocsz >= len(vals)]. *)
Theorem put_blocks_cover_vals vals blocsz :
  (0 < blocsz)%Z →
  ∃ blocks, put_blocks vals blocsz = Ok blocks ∧
    concat blocks = vals ∧
    Forall (λ blk, (0 < Z.of_nat (length blk) ≤ blocsz)%Z) blocks ∧
    (Z.of_nat (length vals) ≤ Z.of_nat (length blocks) * blocsz)%Z ∧
    (blocks ≠ [] →
     ((Z.of_nat (length blocks) - 1) * blocsz < Z.of_nat (length vals))%Z).
Proof.
  intros Hb. destruct (Z_of_nat_complete blocsz) as [b ->]; [lia|].
  destruct (put_blocks_positive vals b) as (k & E & Hhi & Hlo); [lia|].
  exists (block vals b <$> seq 0 k). rewrite length_fmap, length_seq.
  split_and!; [done | | | nia |].
  - rewrite concat_blocks. by apply take_ge.
  - apply Forall_fmap, Forall_forall. intros j [_ Hj]%elem_of_seq. simpl in *.
    destruct (length_block vals b j); [|lia|lia].
    specialize (Hlo ltac:(lia)). nia.
  - intros Hne. assert (k ≠ 0) as Hk by (intros ->; by apply Hne).
    specialize (Hlo Hk). nia.
Qed.

Lemma put_blocks_cover_vals_witness :
  put_blocks (to_vals sample_values) 2
  = Ok [[[Some "FBgn1"; Some "a"]; [Some "FBgn2"; Some "b"]];
        [[Some "FBgn3"; Some "c"]; [Some "FBgn4"; Some "d"]];
        [[Some "FBgn5"; None]]] ∧
  ∃ blocks, put_blocks (to_vals sample_values) 2 = Ok blocks ∧
    concat blocks = to_vals sample_values ∧
    Forall (λ blk, (0 < Z.of_nat (length blk) ≤ 2)%Z) blocks ∧
    (Z.of_nat (length (to_vals sample_values))
       ≤ Z.of_nat (length blocks) * 2)%Z ∧
    (blocks ≠ [] →
     ((Z.of_nat (length blocks) - 1) * 2
        < Z.of_nat (length (to_vals sample_values)))%Z).
Proof.
  split; [reflexivity|].
  apply (put_blocks_cover_vals (to_vals sample_values) 2). lia.
Defined.



Lemma nblocs_negative (n : nat) (b : Z) :
  (b < 0)%Z → ∃ z, nblocs n b = Ok z ∧ (z ≤ 0)%Z.
Proof.
  intros Hb. unfold nblocs. rewrite decide_False by lia. rewrite Qceiling_div.
  eexists. split; [done|].
  replace b with (- (- b))%Z by lia. rewrite Z.div_opp_opp by lia.
  assert (0 ≤ Z.of_nat n / - b)%Z; [|lia]. apply Z.div_pos; lia.
Qed.

(** X17. A block size of 0 raises [ZeroDivisionError] before the table is
    dropped; a negative block size drops the table, creates it again and
    inserts no row. *)
Theorem put_table_degenerate_block_size table values blocsz db :
  (blocsz = 0%Z → put_table table values blocsz db = Raise ZeroDivisionError) ∧
  ((blocsz < 0)%Z → put_table table values blocsz db = Ok (<[table := []]> db)).
Proof.
  split.
  - intros ->. reflexivity.
  - intros Hb. unfold put_table, put_blocks.
    destruct (nblocs_negative (length (to_vals values)) blocsz Hb)
      as (z & -> & Hz).
    simpl. by replace (Z.to_nat z) with 0 by lia.
Qed.

(** ** Two passes at most *)

Lemma propagate_three TOM y : ∃ r, propagate 3 TOM y = Some r.
Proof.
  unfold propagate. simpl. case_decide as H0; [by eexists|].
  destruct (pass TOM y) as [y1|] eqn:E1; [|by eexists].
  apply pass_Ok_no_none in E1 as Hy1. apply count_none_zero in Hy1 as Hc.
  rewrite Hc. rewrite decide_False by lia.
  rewrite (pass_resolved TOM y1 Hy1), Hc. by eexists.
Qed.

(** X18. On every label vector and every TOM the propagation loop is
    over after two passes at most: the first pass resolves every
    placeholder or raises, the second changes nothing and ends the loop. *)
Theorem propagate_two_passes_at_most TOM y :
  ∃ r, propagate 3 TOM y = Some r ∧
       ∀ fuel, 3 ≤ fuel → propagate fuel TOM y = Some r.
Proof.
  destruct (propagate_three TOM y) as [r Hr]. exists r. split; [done|].
  intros fuel Hfuel. unfold propagate in *. by eapply while_del0_mono.
Qed.

(** ** What the similarity matrix depends on *)

Lemma matrix_ext n (A B : matrix) :
  square n A → square n B →
  (∀ a b, a < n → b < n → entry A a b = entry B a b) → A = B.
Proof.
  intros [LA RA] [LB RB] H. apply list_eq. intros a.
  destruct (decide (a < n)) as [Ha|Ha].
  - destruct (lookup_lt_is_Some_2 A a) as [ra Hra]; [lia|].
    destruct (lookup_lt_is_Some_2 B a) as [rb Hrb]; [lia|].
    rewrite Hra, Hrb. f_equal. apply list_eq. intros b.
    eapply Forall_lookup_1 in RA; [|exact Hra].
    eapply Forall_lookup_1 in RB; [|exact Hrb]. simpl in *.
    destruct (decide (b < n)) as [Hb|Hb].
    + specialize (H a b Ha Hb). unfold entry in H. by rewrite Hra, Hrb in H.
    + rewrite !lookup_ge_None_2; [done | lia | lia].
  - rewrite !lookup_ge_None_2; [done | lia | lia].
Qed.

(** X19. The matrix depends on the table only through the order in which
    the genes first appear and through the set of publications of each gene:
    two tables that agree on both, such as a table and the same table with a
    row repeated at its end, give the same matrix. *)
Theorem makeJaccardMat_depends_on_sets df1 df2 :
  unique (symb <$> df1) = unique (symb <$> df2) →
  (∀ g, pubs_of df1 g = pubs_of df2 g) →
  makeJaccardMat df1 = makeJaccardMat df2.
Proof.
  intros Hu Hp.
  destruct (makeJaccardMat_filled df1) as (A & -> & HsA & HA).
  destruct (makeJaccardMat_filled df2) as (B & -> & HsB & HB).
  rewrite <- Hu in HsB, HB. f_equal.
  apply (matrix_ext _ _ _ HsA HsB). intros a b Ha Hb.
  rewrite HA, HB by done. f_equal. unfold cell, pair_value.
  by rewrite Hu, !Hp.
Qed.

Lemma makeJaccardMat_depends_on_sets_witness :
  makeJaccardMat df_scenario = makeJaccardMat (df_scenario ++ [Assoc "g1" 1]).
Proof.
  apply makeJaccardMat_depends_on_sets; [reflexivity|].
  intros g. unfold pubs_of. rewrite filter_app, fmap_app, list_to_set_app_L.
  rewrite filter_cons, filter_nil. case_decide as Hg; [|set_solver].
  simpl in Hg. subst g. apply set_eq. intros p.
  rewrite elem_of_union, !elem_of_list_to_set. simpl.
  rewrite !elem_of_cons. set_solver.
Defined.
